(** * Asynchronous Anytime SMC (src/inference/asmc.js) and util.logsumexp
      (src/util.js): a shallow embedding and the properties it satisfies.

    The aSMC object is a record that is passed explicitly through [control],
    [factor] and [exit].  A call that in the source ends in
    [p.continuation(p.store)] returns the pair to resume ([Resume]); a call the
    JavaScript engine aborts with a TypeError returns [Throw].  Every value of
    [Math.random()] is an explicit argument of the function that draws it.

    Particles are values.  In the source the record that [factor] pushes is
    the object [this.activeParticle] still points to, but the next line to run
    is [control], which replaces [this.activeParticle] before anything is
    written through it: a particle is in the buffer or active, never both
    while one of them is written, so no write is lost by copying.

    JavaScript numbers are modelled as extended reals: NaN, the two
    infinities and the finite values, the latter with exact real arithmetic
    (rounding, overflow to infinity and the sign of zero are not modelled;
    the special values follow IEEE 754 and ECMAScript's Math functions).
    Factor indices, which start at 0 and grow by 1, are natural numbers. *)

From Stdlib Require Import Reals Lra Lia ZArith String.
From stdpp Require Import base option list gmap strings pretty.

(* ===================================================================== *)
(** ** JavaScript numbers *)
(* ===================================================================== *)

Module JS.

Inductive num : Type :=
  | NaN
  | PInf
  | NInf
  | Fin (r : R).

Definition zero : num := Fin 0%R.
Definition one : num := Fin 1%R.

(** [n] seen as a number: [a.length], an array index. *)
Definition of_nat (n : nat) : num := Fin (INR n).

Definition sgn (r : R) : comparison :=
  if Rlt_dec 0 r then Gt else if Rlt_dec r 0 then Lt else Eq.

Definition neg (x : num) : num :=
  match x with
  | NaN => NaN
  | PInf => NInf
  | NInf => PInf
  | Fin r => Fin (- r)
  end.

(** [x + y] *)
Definition add (x y : num) : num :=
  match x, y with
  | NaN, _ | _, NaN => NaN
  | PInf, NInf | NInf, PInf => NaN
  | PInf, _ | _, PInf => PInf
  | NInf, _ | _, NInf => NInf
  | Fin a, Fin b => Fin (a + b)
  end.

(** [x - y] *)
Definition sub (x y : num) : num := add x (neg y).

(** The infinity of the sign of [c] times the sign of the infinity [inf];
    NaN for a zero factor. *)
Definition inf_times (inf : num) (c : comparison) : num :=
  match c with
  | Gt => inf
  | Lt => neg inf
  | Eq => NaN
  end.

(** [x * y] *)
Definition mul (x y : num) : num :=
  match x, y with
  | NaN, _ | _, NaN => NaN
  | Fin a, Fin b => Fin (a * b)
  | Fin a, inf => inf_times inf (sgn a)
  | inf, Fin b => inf_times inf (sgn b)
  | PInf, PInf | NInf, NInf => PInf
  | PInf, NInf | NInf, PInf => NInf
  end.

(** [x / y]; a zero divisor is [+0]. *)
Definition div (x y : num) : num :=
  match x, y with
  | NaN, _ | _, NaN => NaN
  | Fin a, Fin b =>
      if Req_dec_T b 0 then inf_times PInf (sgn a) else Fin (a / b)
  | Fin _, _ => zero
  | inf, Fin b => if Rlt_dec b 0 then neg inf else inf
  | _, _ => NaN
  end.

(** [x < y] *)
Definition ltb (x y : num) : bool :=
  match x, y with
  | NaN, _ | _, NaN => false
  | _, NInf | PInf, _ => false
  | NInf, _ | _, PInf => true
  | Fin a, Fin b => if Rlt_dec a b then true else false
  end.

(** [x > y] *)
Definition gtb (x y : num) : bool := ltb y x.

(** [x <= y] *)
Definition leb (x y : num) : bool :=
  match x, y with
  | NaN, _ | _, NaN => false
  | NInf, _ | _, PInf => true
  | _, NInf | PInf, _ => false
  | Fin a, Fin b => if Rle_dec a b then true else false
  end.

(** [x == y] and [x === y] on two numbers *)
Definition eqb (x y : num) : bool :=
  match x, y with
  | PInf, PInf | NInf, NInf => true
  | Fin a, Fin b => if Req_dec_T a b then true else false
  | _, _ => false
  end.

(** [Math.log(x)] *)
Definition log (x : num) : num :=
  match x with
  | NaN | NInf => NaN
  | PInf => PInf
  | Fin r =>
      if Rlt_dec r 0 then NaN
      else if Req_dec_T r 0 then NInf
      else Fin (ln r)
  end.

(** [Math.exp(x)] *)
Definition exp (x : num) : num :=
  match x with
  | NaN => NaN
  | PInf => PInf
  | NInf => zero
  | Fin r => Fin (Rtrigo_def.exp r)
  end.

(** [Math.floor(x)] *)
Definition floor (x : num) : num :=
  match x with
  | Fin r => Fin (IZR (Int_part r))
  | _ => x
  end.

(** [Math.ceil(x)] *)
Definition ceil (x : num) : num :=
  match x with
  | Fin r => Fin (IZR (- Int_part (- r)))
  | _ => x
  end.

(** [Math.max(x, y)] *)
Definition max (x y : num) : num :=
  match x, y with
  | NaN, _ | _, NaN => NaN
  | _, _ => if ltb x y then y else x
  end.

(** [Math.min(x, y)] *)
Definition min (x y : num) : num :=
  match x, y with
  | NaN, _ | _, NaN => NaN
  | _, _ => if ltb y x then y else x
  end.

(** The array index a number [i] denotes, if any. *)
Definition to_index (i : num) : option nat :=
  match i with
  | Fin r =>
      if Req_dec_T (IZR (Int_part r)) r then
        if Rle_dec 0 r then Some (Z.to_nat (Int_part r)) else None
      else None
  | _ => None
  end.

(** How often the body of [for (var i = 0; i < n; i++)] runs; [None] when
    the loop does not end. *)
Definition iterations (n : num) : option nat :=
  match n with
  | NaN | NInf => Some 0
  | PInf => None
  | Fin r => Some (Z.to_nat (- Int_part (- r)))
  end.

End JS.

Import JS.

(** A positive integer, or [Infinity]: what a child count and a multiplicity
    are. *)
Definition counting (x : num) : Prop :=
  x = PInf \/ exists z : Z, (1 <= z)%Z /\ x = Fin (IZR z).

(* ===================================================================== *)
(** ** util.js *)
(* ===================================================================== *)

(** [Math.max.apply(null, a)]: [-Infinity] for no argument, NaN as soon as
    one argument is NaN. *)
Definition Math_max_apply (a : list num) : num := fold_left max a NInf.

(** [function logsumexp(a)], util.js lines 53-60. *)
Definition logsumexp (a : list num) : num :=
  let m := Math_max_apply a in
  let sum :=
    fold_left
      (fun sum ai => add sum (if eqb ai NInf then zero else exp (sub ai m)))
      a zero in
  add m (log sum).

(** The keys of util.js's [module.exports], lines 111-124. *)
Definition util_exports : list string :=
  [ "cpsForEach"; "gensym"; "logsumexp"; "indexOfPred"; "lastIndexOfPred";
    "makeGensym"; "normalizeArray"; "normalizeHist"; "prettyJSON";
    "runningInBrowser"; "sum"; "histsApproximatelyEqual" ]%string.

(** [util.deleteIndex], read by asmc.js line 86: [module.exports] has no such
    key and the file defines no such function, so the read is [undefined]
    ([None]). *)
Definition util_deleteIndex {A : Type} : option (list A -> num -> list A) :=
  None.

(** What a call of the coroutine throws. *)
Inductive exception : Type :=
  | TypeError (what : string).

(* ===================================================================== *)
(** ** inference/asmc.js *)
(* ===================================================================== *)

Section ASMC.

(** Continuations, stores and return values of the model are opaque. *)
Context {Cont Store Value : Type}.

(** The particle object built by [initParticle] and [copyOneParticle];
    [None] is [undefined]. *)
Record particle : Type := Particle {
  continuation : Cont;
  weight : num;
  finalWeight : num;
  completed : bool;
  factorIndex : option nat;
  value : option Value;
  numChildrenToSpawn : num;
  multiplicity : num;
  store : Store
}.

(** One element of [obsWeights[n]]. *)
Record det : Type := Det {
  wbar : num;
  mnk : num
}.

(** The aSMC object ([this]).  [this.k] and [this.oldCoroutine] are kept out:
    no function reads them before the final return. *)
Record coroutine : Type := Coroutine {
  buffer : list particle;
  bufferSize : num;
  numParticles : num;
  obsWeights : gmap nat (list det);
  exitedParticles : list particle;
  exitK : Cont;
  this_store : Store;
  oldStore : Store;
  activeParticle : option particle
}.

(** The value handed to [this.k] at the end: the returned values the
    histogram is built from and the normalization constant. *)
Record dist : Type := Dist {
  returned : list (option Value);
  normalizationConstant : num
}.

(** How a call of the coroutine ends. *)
Inductive outcome : Type :=
  | Resume (this : coroutine) (k : Cont) (s : Store)
      (** [p.continuation(p.store)] *)
  | Finish (this : coroutine) (s : Store) (d : dist)
      (** [this.k(this.oldStore, dist)] *)
  | Throw (e : exception)
  | Hang.
      (** the seeding loop of the constructor does not end *)

(** [_.clone(s)]: a shallow copy; stores are values here. *)
Definition clone (s : Store) : Store := s.

(** Field updates of a particle. *)
Definition set_weight (w : num) (p : particle) : particle :=
  Particle (continuation p) w (finalWeight p) (completed p) (factorIndex p)
    (value p) (numChildrenToSpawn p) (multiplicity p) (store p).

Definition set_finalWeight (w : num) (p : particle) : particle :=
  Particle (continuation p) (weight p) w (completed p) (factorIndex p)
    (value p) (numChildrenToSpawn p) (multiplicity p) (store p).

Definition set_numChildrenToSpawn (c : num) (p : particle) : particle :=
  Particle (continuation p) (weight p) (finalWeight p) (completed p)
    (factorIndex p) (value p) c (multiplicity p) (store p).

Definition set_multiplicity (m : num) (p : particle) : particle :=
  Particle (continuation p) (weight p) (finalWeight p) (completed p)
    (factorIndex p) (value p) (numChildrenToSpawn p) m (store p).

(** Field updates of the aSMC object. *)
Definition set_buffer (b : list particle) (this : coroutine) : coroutine :=
  Coroutine b (bufferSize this) (numParticles this) (obsWeights this)
    (exitedParticles this) (exitK this) (this_store this) (oldStore this)
    (activeParticle this).

Definition set_numParticles (n : num) (this : coroutine) : coroutine :=
  Coroutine (buffer this) (bufferSize this) n (obsWeights this)
    (exitedParticles this) (exitK this) (this_store this) (oldStore this)
    (activeParticle this).

Definition set_obsWeights (o : gmap nat (list det)) (this : coroutine)
  : coroutine :=
  Coroutine (buffer this) (bufferSize this) (numParticles this) o
    (exitedParticles this) (exitK this) (this_store this) (oldStore this)
    (activeParticle this).

Definition set_exitedParticles (e : list particle) (this : coroutine)
  : coroutine :=
  Coroutine (buffer this) (bufferSize this) (numParticles this)
    (obsWeights this) e (exitK this) (this_store this) (oldStore this)
    (activeParticle this).

Definition set_activeParticle (p : particle) (this : coroutine) : coroutine :=
  Coroutine (buffer this) (bufferSize this) (numParticles this)
    (obsWeights this) (exitedParticles this) (exitK this) (this_store this)
    (oldStore this) (Some p).

(** [function copyOneParticle(particle)], lines 15-27. *)
Definition copyOneParticle (p : particle) : particle :=
  {| continuation := continuation p;
     weight := weight p;
     finalWeight := finalWeight p;
     completed := completed p;
     factorIndex := factorIndex p;
     value := value p;
     numChildrenToSpawn := one;
     multiplicity := multiplicity p;
     store := clone (store p) |}.

(** [function initParticle(s, cont)], lines 29-41. *)
Definition initParticle (s : Store) (cont : Cont) : particle :=
  {| continuation := cont;
     weight := zero;
     finalWeight := zero;
     completed := false;
     factorIndex := None;
     value := None;
     numChildrenToSpawn := zero;
     multiplicity := one;
     store := clone s |}.

(** Line 71 of [control]: [numP] is added to the target unless it is
    [undefined]. *)
Definition counted (this : coroutine) (numP : option num) : coroutine :=
  set_numParticles
    (match numP with
     | None => numParticles this
     | Some n => add (numParticles this) n
     end) this.

(** The tail call [p.continuation(p.store)] of [control], lines 89-90. *)
Definition launch (this : coroutine) (p : particle) : outcome :=
  Resume (set_activeParticle p this) (continuation p) (store p).

(** [aSMC.prototype.control], lines 69-91.  [numP] is [None] for a call without
    argument; [random] is the value of [Math.random()]. *)
Definition control (this : coroutine) (numP : option num) (random : num)
  : outcome :=
  let this := counted this numP in
  let i := floor (mul (of_nat (length (buffer this) + 1)) random) in
  if eqb i (of_nat (length (buffer this))) then
    launch this (initParticle (this_store this) (exitK this))
  else
    match to_index i with
    | None => Throw (TypeError "launchP is undefined")
    | Some ix =>
        match buffer this !! ix with
        | None => Throw (TypeError "launchP is undefined")
        | Some launchP =>
            if gtb (numChildrenToSpawn launchP) one then
              let p := copyOneParticle launchP in
              let launchP :=
                set_numChildrenToSpawn
                  (sub (numChildrenToSpawn launchP) one) launchP in
              launch (set_buffer (<[ix := launchP]> (buffer this)) this) p
            else
              match util_deleteIndex with
              | None => Throw (TypeError "util.deleteIndex is not a function")
              | Some deleteIndex =>
                  launch (set_buffer (deleteIndex (buffer this) i) this)
                    launchP
              end
        end
    end.

(** Line 102: [fi == undefined ? 0 : fi + 1]. *)
Definition newFI (fi : option nat) : nat :=
  match fi with
  | None => 0
  | Some fi => fi + 1
  end.

(** Lines 98-103 of [factor]: the score, the continuation, the store and the
    factor index of the active particle. *)
Definition arrive (p : particle) (s : Store) (cc : Cont) (score : num)
  : particle :=
  {| continuation := cc;
     weight := add (weight p) score;
     finalWeight := finalWeight p;
     completed := completed p;
     factorIndex := Some (newFI (factorIndex p));
     value := value p;
     numChildrenToSpawn := numChildrenToSpawn p;
     multiplicity := multiplicity p;
     store := s |}.

(** Line 131: [for (v ...) totalChildren += lk[v].mnk]. *)
Definition totalChildren (lk : list det) : num :=
  fold_left (fun total d => add total (mnk d)) lk zero.

(** Lines 119-122: the reference weight of an arrival of weight [currWeight] and
    multiplicity [currMultiplicity] after the arrivals of [lk]. *)
Definition next_wbar (lk : list det) (prevWBar currMultiplicity currWeight : num)
  : num :=
  let denom := add (of_nat (length lk)) currMultiplicity in
  logsumexp [ add (log (div (of_nat (length lk)) denom)) prevWBar;
              add (log (div currMultiplicity denom)) currWeight ].

(** Lines 124-136: [numChildrenAndWeight]; [random] is the value of
    [Math.random()], which only the first branch draws. *)
Definition numChildrenAndWeight (bufSize : num) (lk : list det)
    (wbar currWeight random : num) : num * num :=
  let logRatio := sub currWeight wbar in
  if ltb logRatio zero then
    if ltb (log random) logRatio then (one, wbar) else (zero, NInf)
  else
    let minK := min bufSize (of_nat (length lk)) in
    let rnk := exp logRatio in
    let clampedRnk :=
      if leb (totalChildren lk) minK then ceil rnk else floor rnk in
    (clampedRnk, sub currWeight (log clampedRnk)).

(** Lines 142-156: what becomes of the active particle [p] that was awarded
    [c] children of weight [w]. *)
Definition rebuffer (this : coroutine) (p : particle) (c w score : num)
  : coroutine :=
  if gtb c zero then
    let p :=
      if ltb (of_nat (length (buffer this))) (bufferSize this) then
        set_weight w (set_numChildrenToSpawn c p)
      else
        set_weight w
          (set_numChildrenToSpawn one
             (set_multiplicity (mul (multiplicity p) c) p)) in
    let p :=
      set_finalWeight (add (add (log (multiplicity p)) (weight p)) score) p in
    set_buffer (buffer this ++ [p]) (set_activeParticle p this)
  else this.

(** [aSMC.prototype.factor], lines 97-158: the object as it is when the
    function reaches one of its two [return this.control()]. *)
Definition factor_update (this : coroutine) (s : Store) (cc : Cont)
    (score random : num) : exception + coroutine :=
  match activeParticle this with
  | None => inl (TypeError "this.activeParticle is undefined")
  | Some p =>
      let newFI := newFI (factorIndex p) in
      let p := arrive p s cc score in
      let this := set_activeParticle p this in
      if eqb (weight p) NInf then inr this
      else
        match obsWeights this !! newFI with
        | None =>
            let det := {| wbar := weight p; mnk := one |} in
            let p := set_finalWeight (weight p) (set_numChildrenToSpawn one p) in
            inr (set_obsWeights (<[newFI := [det]]> (obsWeights this))
                   (set_activeParticle p this))
        | Some lk =>
            match last lk with
            | None => inl (TypeError "lk[lk.length - 1] is undefined")
            | Some prev =>
                let wbar := next_wbar lk (wbar prev) (multiplicity p) (weight p) in
                let cw :=
                  numChildrenAndWeight (bufferSize this) lk wbar (weight p)
                    random in
                let det2 := {| wbar := wbar; mnk := fst cw |} in
                let this :=
                  set_obsWeights (<[newFI := lk ++ [det2]]> (obsWeights this))
                    this in
                inr (rebuffer this p (fst cw) (snd cw) score)
            end
        end
  end.

(** [aSMC.prototype.factor] with its final [return this.control()];
    [random] is drawn by line 126 (when it is reached), [random'] by
    [control]. *)
Definition factor (this : coroutine) (s : Store) (cc : Cont)
    (score random random' : num) : outcome :=
  match factor_update this s cc score random with
  | inl e => Throw e
  | inr this => control this None random'
  end.

(** Lines 163-168 of [exit]: the active particle is completed, takes its
    [finalWeight] as weight and joins [exitedParticles]. *)
Definition exit_update (this : coroutine) (s : Store) (retval : Value)
  : exception + coroutine :=
  match activeParticle this with
  | None => inl (TypeError "this.activeParticle is undefined")
  | Some p =>
      let p :=
        {| continuation := continuation p;
           weight := finalWeight p;
           finalWeight := finalWeight p;
           completed := true;
           factorIndex := factorIndex p;
           value := Some retval;
           numChildrenToSpawn := numChildrenToSpawn p;
           multiplicity := multiplicity p;
           store := store p |} in
      inr (set_exitedParticles (exitedParticles this ++ [p])
             (set_activeParticle p this))
  end.

(** [aSMC.prototype.exit], lines 162-199.  The histogram of lines 174-184 is
    left as the list of the returned values. *)
Definition exit (this : coroutine) (s : Store) (retval : Value) (random : num)
  : outcome :=
  match exit_update this s retval with
  | inl e => Throw e
  | inr this =>
      if ltb (of_nat (length (exitedParticles this))) (numParticles this) then
        control this None random
      else
        let nc := logsumexp (map weight (exitedParticles this)) in
        Finish this (oldStore this)
          {| returned := map value (exitedParticles this);
             normalizationConstant := sub nc (log (numParticles this)) |}
  end.

(** [function aSMC(s, k, a, wpplFn, numParticles, bufferSize)], lines 43-67.
    [wpplFn] stands for the closure [function(s) {return wpplFn(s, env.exit, a)}]
    stored in [this.exitK]. *)
Definition aSMC (s : Store) (wpplFn : Cont) (numP bufSize random : num)
  : outcome :=
  let initNumP := floor (div (mul bufSize (Fin 3)) (Fin 5)) in
  match iterations initNumP with
  | None => Hang
  | Some n =>
      control
        {| buffer := replicate n (initParticle s wpplFn);
           bufferSize := bufSize;
           numParticles := zero;
           obsWeights := ∅;
           exitedParticles := [];
           exitK := wpplFn;
           this_store := s;
           oldStore := clone s;
           activeParticle := None |}
        (Some numP) random
  end.

(** The calls that reach the coroutine while it is installed: the model calls
    [factor] or [exit]; the caller extends a finished run with
    [dist.continue(numP)]. ([sample] calls its continuation and leaves the
    object as it is.) *)
Inductive call : Type :=
  | CallFactor (s : Store) (cc : Cont) (score random random' : num)
  | CallExit (s : Store) (retval : Value) (random : num)
  | CallContinue (numP : option num) (random : num).

Definition dispatch (this : coroutine) (c : call) : outcome :=
  match c with
  | CallFactor s cc score random random' => factor this s cc score random random'
  | CallExit s retval random => exit this s retval random
  | CallContinue numP random => control this numP random
  end.

(** The object an outcome leaves behind. *)
Definition object_of (o : outcome) : option coroutine :=
  match o with
  | Resume this _ _ | Finish this _ _ => Some this
  | Throw _ | Hang => None
  end.

(** The objects a run goes through: the one the constructor's first step
    leaves, and the one each later call leaves. *)
Inductive reachable : coroutine -> Prop :=
  | reachable_aSMC s wpplFn numP bufSize random this :
      object_of (aSMC s wpplFn numP bufSize random) = Some this ->
      reachable this
  | reachable_call this c this' :
      reachable this ->
      object_of (dispatch this c) = Some this' ->
      reachable this'.

(** A run: the constructor's outcome, then one call after the other as long
    as the object is there. *)
Definition after (o : outcome) (c : call) : outcome :=
  match object_of o with
  | Some this => dispatch this c
  | None => o
  end.

Definition run (o : outcome) (cs : list call) : outcome := fold_left after cs o.

(** A buffered particle stands for a positive number of particles; it has a
    positive number of child credits unless it is as [initParticle] built
    it. *)
Definition buffered_ok (s : Store) (k : Cont) (p : particle) : Prop :=
  counting (multiplicity p) /\
  (counting (numChildrenToSpawn p) \/ p = initParticle s k).

(** The invariant of a run on child credits and multiplicities. *)
Definition counts_ok (this : coroutine) : Prop :=
  Forall (buffered_ok (this_store this) (exitK this)) (buffer this) /\
  forall p, activeParticle this = Some p -> counting (multiplicity p).

(** The invariant of a run on the hooks' data: there is an active particle,
    every ledger begins with the entry of a first arrival, and every
    completed particle is as [exit] left it. *)
Definition hooks_ok (this : coroutine) : Prop :=
  is_Some (activeParticle this) /\
  (forall n lk, obsWeights this !! n = Some lk ->
     exists d rest, lk = d :: rest /\ mnk d = one /\ wbar d <> NInf) /\
  Forall (fun p => completed p = true /\ weight p = finalWeight p /\
                   is_Some (value p))
    (exitedParticles this).

(** A [factor] call whose score is [-Infinity]. *)
Definition dead_factor (c : call) : Prop :=
  match c with
  | CallFactor _ _ score _ _ => score = NInf
  | _ => False
  end.

(** Nothing has arrived at an observation or completed yet, the buffer holds
    seeded particles only and a fresh particle is active. *)
Definition idle (this : coroutine) : Prop :=
  (exists n,
     buffer this = replicate n (initParticle (this_store this) (exitK this))) /\
  obsWeights this = ∅ /\
  exitedParticles this = [] /\
  activeParticle this = Some (initParticle (this_store this) (exitK this)).

(** *** The last score of a particle

    The spec's "lastScore" is the score of the last [factor] call on a
    particle's path.  The source keeps no such field, so a run is followed
    with it on the side: one entry per buffered record and one for the active
    particle.  A record carries the score of the [factor] call that pushed
    it, since whoever is resumed from the record goes on right after that
    call.  [None]: the particle has passed no [factor] (a seeded or a fresh
    one), or the run has just handed over its result. *)
Record lastScores : Type := LastScores {
  lastScore_buffer : list (option num);
  lastScore_active : option num
}.

(** [control], lines 76-90: a fresh particle has passed no [factor]; a copy
    goes on from the record it was copied from. *)
Definition control_lastScores (this : coroutine) (random : num)
    (g : lastScores) : lastScores :=
  let i := floor (mul (of_nat (length (buffer this) + 1)) random) in
  if eqb i (of_nat (length (buffer this))) then
    LastScores (lastScore_buffer g) None
  else
    match to_index i with
    | None => g
    | Some ix =>
        LastScores (lastScore_buffer g)
          (default None (lastScore_buffer g !! ix))
    end.

(** [factor]: the record that line 155 pushes, if any, carries [score]; then
    [control] picks the next particle. *)
Definition factor_lastScores (this : coroutine) (s : Store) (cc : Cont)
    (score random random' : num) (g : lastScores) : lastScores :=
  match factor_update this s cc score random with
  | inl _ => g
  | inr this' =>
      control_lastScores this' random'
        (LastScores
           (if Nat.ltb (length (buffer this)) (length (buffer this'))
            then lastScore_buffer g ++ [Some score]
            else lastScore_buffer g)
           (Some score))
  end.

(** [exit]: the buffer is left alone; [control] picks the next particle
    unless the run ends. *)
Definition exit_lastScores (this : coroutine) (s : Store) (retval : Value)
    (random : num) (g : lastScores) : lastScores :=
  match exit_update this s retval with
  | inl _ => g
  | inr this' =>
      if ltb (of_nat (length (exitedParticles this'))) (numParticles this')
      then control_lastScores this' random g
      else LastScores (lastScore_buffer g) None
  end.

Definition dispatch_lastScores (this : coroutine) (c : call) (g : lastScores)
  : lastScores :=
  match c with
  | CallFactor s cc score random random' =>
      factor_lastScores this s cc score random random' g
  | CallExit s retval random => exit_lastScores this s retval random g
  | CallContinue numP random => control_lastScores this random g
  end.

(** The objects a run goes through, each with the last scores of its
    particles: those of the object the constructor leaves have passed no
    [factor]. *)
Inductive scored : coroutine -> lastScores -> Prop :=
  | scored_aSMC s wpplFn numP bufSize random this :
      object_of (aSMC s wpplFn numP bufSize random) = Some this ->
      scored this (LastScores (replicate (length (buffer this)) None) None)
  | scored_call this g c this' :
      scored this g ->
      object_of (dispatch this c) = Some this' ->
      scored this' (dispatch_lastScores this c g).

(** The final weight of a particle is that of lines 152-154 for [score]. *)
Definition final_for (score : num) (p : particle) : Prop :=
  finalWeight p = add (add (log (multiplicity p)) (weight p)) score.

(** The invariant of a run on final weights: every particle with a last
    score has the final weight of lines 152-154 for it. *)
Definition lastScores_ok (this : coroutine) (g : lastScores) : Prop :=
  length (lastScore_buffer g) = length (buffer this) /\
  (forall ix p score,
     buffer this !! ix = Some p ->
     lastScore_buffer g !! ix = Some (Some score) -> final_for score p) /\
  (forall p score,
     activeParticle this = Some p ->
     lastScore_active g = Some score -> final_for score p).

End ASMC.

Arguments particle : clear implicits.
Arguments coroutine : clear implicits.
Arguments outcome : clear implicits.
Arguments dist : clear implicits.
Arguments call : clear implicits.

(* ===================================================================== *)
(** ** Concrete runs *)
(* ===================================================================== *)

(** The runs below take [unit] for stores and returned values and number the
    continuations: 0 is the model's entry, 1 the continuation of its factor
    statements. *)
Module Scenario.

Definition Obj : Type := coroutine nat unit unit.

(** [aSMC(s, k, a, model, 10, 1)] whose first draw is 0: no particle is
    seeded and a fresh particle runs. *)
Definition start_1 : outcome nat unit unit :=
  aSMC tt 0%nat (Fin 10) (Fin 1) (Fin 0).

Definition started_1 : Obj :=
  Coroutine [] (Fin 1) (add zero (Fin 10)) ∅ [] 0%nat tt tt
    (Some (initParticle tt 0%nat)).

(** The first particle reaches [factor(0)]. *)
Definition first_factor : call nat unit unit :=
  CallFactor tt 1%nat (Fin 0) (Fin 0) (Fin 0).

(** Two more fresh particles reach [factor(-1)] and [factor(-2)]; each
    draws 0 at line 126 and is followed by a fresh particle. *)
Definition second_factor : call nat unit unit :=
  CallFactor tt 1%nat (Fin (-1)) (Fin 0) (Fin (1 / 2)).

Definition third_factor : call nat unit unit :=
  CallFactor tt 1%nat (Fin (-2)) (Fin 0) (Fin (2 / 3)).

(** [aSMC(s, k, a, model, 10, 5)] whose first draw is 3/4: three particles
    are seeded and a fresh one runs. *)
Definition start_5 : outcome nat unit unit :=
  aSMC tt 0%nat (Fin 10) (Fin 5) (Fin (3 / 4)).

Definition started_5 : Obj :=
  Coroutine (replicate 3 (initParticle tt 0%nat)) (Fin 5) (add zero (Fin 10))
    ∅ [] 0%nat tt tt (Some (initParticle tt 0%nat)).

(** [aSMC(s, k, a, model, 10, 2)] whose first draw is 1/4: the seeded
    particle is selected. *)
Definition start_2 : outcome nat unit unit :=
  aSMC tt 0%nat (Fin 10) (Fin 2) (Fin (1 / 4)).

(** The object the constructor hands to [control] then. *)
Definition seeded_2 : Obj :=
  Coroutine [initParticle tt 0%nat] (Fin 2) zero ∅ [] 0%nat tt tt None.

(** [aSMC(s, k, a, model, 0, 0)]. *)
Definition start_0 : outcome nat unit unit :=
  aSMC tt 0%nat (Fin 0) (Fin 0) (Fin 0).

Definition started_0 : Obj :=
  Coroutine [] (Fin 0) (add zero (Fin 0)) ∅ [] 0%nat tt tt
    (Some (initParticle tt 0%nat)).

(** The object after the first particle's [factor(0)], before [control]. *)
Definition first_arrived : Obj :=
  Coroutine [] (Fin 1) (add zero (Fin 10))
    (<[0%nat := [Det (Fin (0 + 0)) one]]> ∅) [] 0%nat tt tt
    (Some (Particle 1%nat (Fin (0 + 0)) (Fin (0 + 0)) false (Some 0%nat) None
             one one tt)).

(** The object once [control] has started the second particle. *)
Definition second_started : Obj :=
  Coroutine [] (Fin 1) (add zero (Fin 10))
    (<[0%nat := [Det (Fin (0 + 0)) one]]> ∅) [] 0%nat tt tt
    (Some (initParticle tt 0%nat)).

(** The second particle reaches [factor(1)], above the reference weight of the
    first; the draw 0 of [control] then selects the record it leaves. *)
Definition outperforming_factor : call nat unit unit :=
  CallFactor tt 1%nat (Fin 1) (Fin 0) (Fin 0).

(** A buffer whose only record has two child credits. *)
Definition with_credit : Obj :=
  Coroutine
    [Particle 1%nat (Fin 0) (Fin 0) false (Some 0%nat) None (Fin 2) one tt]
    (Fin 5) (Fin 10) ∅ [] 0%nat tt tt None.

(** The first particle of [start_1] returns at once. *)
Definition first_exit : call nat unit unit := CallExit tt tt (Fin 0).

(** A fresh particle is active, the buffer holds [len] records of a buffer
    size of one, and the ledger of observation 0 has [n] entries, the last
    with a reference weight of at least [v]. *)
Definition fresh_at (this : Obj) (len n : nat) (v : R) : Prop :=
  length (buffer this) = len /\
  bufferSize this = Fin 1 /\
  this_store this = tt /\
  exitK this = 0%nat /\
  activeParticle this = Some (initParticle tt 0%nat) /\
  exists lk prev x,
    obsWeights this !! 0%nat = Some lk /\ length lk = n /\
    last lk = Some prev /\ wbar prev = Fin x /\ (v <= x)%R.

End Scenario.

(* ===================================================================== *)
(** ** util.js: the other helpers *)
(* ===================================================================== *)

Module Util.

(** [Math.abs(x)] *)
Definition Math_abs (x : num) : num :=
  match x with
  | NaN => NaN
  | PInf | NInf => PInf
  | Fin r => Fin (Rabs r)
  end.

(** [makeGensym()], lines 10-17: the closure's variable [seq] is the state
    of a generator; a new generator starts at 0. *)
Definition makeGensym : nat := 0.

(** A call of the closure, lines 12-16: [prefix + seq] prints [seq] in decimal;
    the result comes with the new [seq]. *)
Definition gensym (seq : nat) (prefix : string) : string * nat :=
  (prefix +:+ pretty seq, seq + 1).

(** The results of successive calls of one generator. *)
Fixpoint gensym_calls (seq : nat) (prefixes : list string) : list string :=
  match prefixes with
  | [] => []
  | prefix :: prefixes =>
      (gensym seq prefix).1 :: gensym_calls (gensym seq prefix).2 prefixes
  end.

(** [function sum(xs)], lines 25-35: [reduce] without a start value begins
    with the first element. *)
Definition sum (xs : list num) : num :=
  match xs with
  | [] => zero
  | x :: xs => fold_left add xs x
  end.

(** [function normalizeArray(xs)], lines 46-51. *)
Definition normalizeArray (xs : list num) : list num :=
  let total := sum xs in
  map (fun x => div x total) xs.

(** The histograms of [normalizeHist] and [histsApproximatelyEqual] are plain
    objects whose values are numbers.  Underscore's [_.each] goes through such
    an object key by key, unless it has a numeric property [length]: then it
    goes through it by index, as through an array.  And an assignment to the
    key [__proto__] creates no property.  The two functions are modelled for
    objects with neither key. *)
Definition plain_keys (keys : list string) : Prop :=
  ("length"%string ∉ keys) /\ ("__proto__"%string ∉ keys).

(** [function normalizeHist(hist)], lines 37-44, for [plain_keys].  An object
    is the list of its own properties in enumeration order, with distinct
    keys. *)
Definition normalizeHist (hist : list (string * num)) : list (string * num) :=
  let total := sum (map snd hist) in
  map (fun kv => (kv.1, div kv.2 total)) hist.

(** The loop of [indexOfPred], lines 65-69, over the elements from [i] on. *)
Fixpoint scan_up {A : Type} (p : option A -> bool) (rest : list A) (i : nat)
  : Z :=
  match rest with
  | [] => (-1)%Z
  | x :: rest => if p (Some x) then Z.of_nat i else scan_up p rest (S i)
  end.

(** [indexOfPred(l, p, start)], lines 63-71.  A value handed to [p] is
    [Some] element or [None] for [undefined]; [start] is [None] when the
    argument is left out, and [start || 0] is then 0. *)
Definition indexOfPred {A : Type} (l : list A) (p : option A -> bool)
    (start : option nat) : Z :=
  let start := default 0%nat start in
  scan_up p (drop start l) start.

(** The loop of [lastIndexOfPred], lines 76-78, from [i] down to 0. *)
Fixpoint scan_down {A : Type} (p : option A -> bool) (l : list A) (i : nat)
  : Z :=
  if p (l !! i) then Z.of_nat i
  else
    match i with
    | O => (-1)%Z
    | S j => scan_down p l j
    end.

(** [lastIndexOfPred(l, p, start)], lines 74-80: [start || l.length - 1]
    takes [l.length - 1] for a [start] that is left out or 0; for an empty
    [l] that is -1 and the loop does not run. *)
Definition lastIndexOfPred {A : Type} (l : list A) (p : option A -> bool)
    (start : option nat) : Z :=
  match start with
  | Some (S n) => scan_down p l (S n)
  | Some O | None =>
      match length l with
      | O => (-1)%Z
      | S n => scan_down p l n
      end
  end.

(** The index the loop of [lastIndexOfPred] starts from when [l] has an
    element or [start] is positive. *)
Definition last_start {A : Type} (l : list A) (start : option nat) : nat :=
  match start with
  | Some (S n) => S n
  | _ => length l - 1
  end.

(** The recursion of [cpsForEach], lines 86-92.  [fuel] bounds the number of
    nested calls and [bottom] is the answer of a recursion that is cut off;
    [func] gets [xs[i]] ([None] for [undefined]), [i], [xs] and the
    continuation. *)
Fixpoint cpsForEach_loop {A Ans : Type} (fuel : nat) (bottom : Ans)
    (func : option A -> nat -> list A -> (unit -> Ans) -> Ans)
    (nextK : unit -> Ans) (xs : list A) (i : nat) : Ans :=
  match fuel with
  | O => bottom
  | S fuel =>
      if decide (i = length xs) then nextK tt
      else
        func (xs !! i) i xs
          (fun _ => cpsForEach_loop fuel bottom func nextK xs (i + 1))
  end.

(** [cpsForEach(func, nextK, xs, i)], lines 84-93: [i] is 0 when it is left
    out. *)
Definition cpsForEach {A Ans : Type} (fuel : nat) (bottom : Ans)
    (func : option A -> nat -> list A -> (unit -> Ans) -> Ans)
    (nextK : unit -> Ans) (xs : list A) (i : option nat) : Ans :=
  cpsForEach_loop fuel bottom func nextK xs (default 0%nat i).

(** What a [func] that updates a state by [step] and then calls its
    continuation does to the elements [rest], the first of index [i]. *)
Fixpoint visit {A St : Type} (step : option A -> nat -> list A -> St -> St)
    (xs rest : list A) (i : nat) (st : St) : St :=
  match rest with
  | [] => st
  | x :: rest => visit step xs rest (S i) (step (Some x) i xs st)
  end.

(** [value || 0], line 100, for [hist[key]]. *)
Definition or_zero (value : option num) : num :=
  match value with
  | None | Some NaN => zero
  | Some value => value
  end.

(** Line 101: the test of one key. *)
Definition testPassed (hist : gmap string num) (tolerance : num)
    (key : string) (expectedValue : num) : bool :=
  leb (Math_abs (sub (or_zero (hist !! key)) expectedValue)) tolerance.

(** [histsApproximatelyEqual(hist, expectedHist, tolerance)], lines 95-109,
    for [plain_keys]; [expectedHist] is the list of its properties in
    enumeration order, [hist] holds its own properties, and what is printed
    is left out. *)
Definition histsApproximatelyEqual (hist : gmap string num)
    (expectedHist : list (string * num)) (tolerance : num) : bool :=
  fold_left
    (fun allOk kv => allOk && testPassed hist tolerance kv.1 kv.2)
    expectedHist true.

End Util.

(* ===================================================================== *)
(** ** Numbers: evaluation and order *)
(* ===================================================================== *)

Open Scope R_scope.

(** Decides the comparisons of reals that occur in the goal by [lra]. *)
Ltac rdec :=
  repeat match goal with
    | |- context [Rlt_dec ?a ?b] => destruct (Rlt_dec a b); try lra
    | |- context [Rle_dec ?a ?b] => destruct (Rle_dec a b); try lra
    | |- context [Req_dec_T ?a ?b] => destruct (Req_dec_T a b); try lra
    end.

Lemma Int_part_IZR (z : Z) : Int_part (IZR z) = z.
Proof. symmetry. apply Int_part_spec. lra. Qed.

Lemma Int_part_between (r : R) (z : Z) :
  IZR z <= r < IZR z + 1 -> Int_part r = z.
Proof. intros H. symmetry. apply Int_part_spec. lra. Qed.

Lemma floor_Fin_between (r : R) (z : Z) :
  IZR z <= r < IZR z + 1 -> floor (Fin r) = Fin (IZR z).
Proof. intros H. simpl. now rewrite (Int_part_between r z). Qed.

Lemma eqb_NInf (x : num) : eqb x NInf = true <-> x = NInf.
Proof. destruct x; simpl; split; congruence. Qed.

Lemma ltb_Fin (a b : R) : ltb (Fin a) (Fin b) = true <-> a < b.
Proof. simpl. destruct (Rlt_dec a b); split; (congruence || lra || auto). Qed.

Lemma leb_Fin (a b : R) : leb (Fin a) (Fin b) = true <-> a <= b.
Proof. simpl. destruct (Rle_dec a b); split; (congruence || lra || auto). Qed.

Lemma add_zero_r_Fin (r : R) : add (Fin r) zero = Fin r.
Proof. simpl. f_equal. lra. Qed.

Lemma to_index_of_nat (n : nat) : to_index (of_nat n) = Some n.
Proof.
  unfold to_index, of_nat. rewrite Int_part_INR, <- INR_IZR_INZ.
  pose proof (pos_INR n).
  destruct (Req_dec_T (INR n) (INR n)); [|congruence].
  destruct (Rle_dec 0 (INR n)); [|lra].
  now rewrite Nat2Z.id.
Qed.

Lemma leb_zero_not_ltb (x : num) : leb zero x = true -> ltb x zero = false.
Proof.
  destruct x; simpl; try congruence.
  destruct (Rle_dec 0 r); [|congruence].
  intros _. rdec; reflexivity.
Qed.

Lemma exp_ge_1 (r : R) : 0 <= r -> 1 <= Rtrigo_def.exp r.
Proof. intros H. pose proof (exp_ineq1_le r). lra. Qed.

(** An outperforming arrival gets at least one child, whichever rounding. *)
Lemma floor_exp_pos (x : num) :
  leb zero x = true -> gtb (floor (exp x)) zero = true.
Proof.
  destruct x; simpl; try congruence.
  destruct (Rle_dec 0 r) as [Hr|]; [intros _|congruence].
  apply exp_ge_1 in Hr.
  destruct (base_Int_part (Rtrigo_def.exp r)) as [_ H].
  assert (0 < Int_part (Rtrigo_def.exp r))%Z by (apply lt_IZR; lra).
  unfold gtb. apply ltb_Fin. apply IZR_lt. lia.
Qed.

Lemma ceil_exp_pos (x : num) :
  leb zero x = true -> gtb (ceil (exp x)) zero = true.
Proof.
  destruct x; simpl; try congruence.
  destruct (Rle_dec 0 r) as [Hr|]; [intros _|congruence].
  apply exp_ge_1 in Hr.
  destruct (base_Int_part (- Rtrigo_def.exp r)) as [H _].
  assert (Int_part (- Rtrigo_def.exp r) < 0)%Z by (apply lt_IZR; lra).
  unfold gtb. apply ltb_Fin. apply IZR_lt. lia.
Qed.

Lemma mul_one_r (x : num) : mul x one = x.
Proof.
  destruct x; unfold one; cbn [mul inf_times]; try reflexivity.
  - unfold sgn. rdec; reflexivity.
  - unfold sgn. rdec; reflexivity.
  - f_equal. lra.
Qed.

(* ===================================================================== *)
(** ** [factor]: the observation ledger and the resampling policy *)
(* ===================================================================== *)

Section Factor.

Context {Cont Store Value : Type}.
Implicit Types (this : coroutine Cont Store Value).
Implicit Types (p : particle Cont Store Value).
Implicit Types (s : Store) (cc : Cont).

(** A first arrival of finite weight [W] at observation [n]: the ledger gets
    [{wbar: W, mnk: 1}], the particle gets one child credit and [W] as weight and
    final weight; the buffer is left as it was. *)
Lemma factor_first_arrival this p s cc score random W :
  activeParticle this = Some p ->
  add (weight p) score = Fin W ->
  obsWeights this !! newFI (factorIndex p) = None ->
  exists this' p',
    factor_update this s cc score random = inr this' /\
    obsWeights this' =
      <[newFI (factorIndex p) := [Det (Fin W) one]]> (obsWeights this) /\
    activeParticle this' = Some p' /\
    weight p' = Fin W /\ finalWeight p' = Fin W /\
    numChildrenToSpawn p' = one /\
    buffer this' = buffer this.
Proof.
  intros Hact HW Hlk. unfold factor_update. rewrite Hact. cbn.
  rewrite HW, Hlk. cbn. eauto 10.
Qed.

(** The object [factor] works on once lines 98-103 have run. *)
Lemma factor_later_arrival this p s cc score random W lk prev :
  activeParticle this = Some p ->
  add (weight p) score = Fin W ->
  obsWeights this !! newFI (factorIndex p) = Some lk ->
  last lk = Some prev ->
  let wbar' := next_wbar lk (wbar prev) (multiplicity p) (Fin W) in
  let cw := numChildrenAndWeight (bufferSize this) lk wbar' (Fin W) random in
  factor_update this s cc score random =
    inr (rebuffer
           (set_obsWeights
              (<[newFI (factorIndex p) := lk ++ [Det wbar' (fst cw)]]>
                 (obsWeights this))
              (set_activeParticle (arrive p s cc score) this))
           (arrive p s cc score) (fst cw) (snd cw) score).
Proof.
  intros Hact HW Hlk Hprev. cbn zeta. rewrite <- HW.
  unfold factor_update. rewrite Hact. cbn.
  destruct (eqb (add (weight p) score) NInf) eqn:E;
    [apply eqb_NInf in E; congruence|].
  rewrite Hlk, Hprev. reflexivity.
Qed.

Lemma rebuffer_obsWeights this p c w score :
  obsWeights (rebuffer this p c w score) = obsWeights this.
Proof. unfold rebuffer. repeat case_match; reflexivity. Qed.

Lemma rebuffer_children this p c w score :
  gtb c zero = true ->
  exists p',
    buffer (rebuffer this p c w score) = buffer this ++ [p'] /\
    activeParticle (rebuffer this p c w score) = Some p' /\
    weight p' = w /\
    finalWeight p' = add (add (log (multiplicity p')) w) score /\
    (ltb (of_nat (length (buffer this))) (bufferSize this) = true ->
       numChildrenToSpawn p' = c /\ multiplicity p' = multiplicity p) /\
    (ltb (of_nat (length (buffer this))) (bufferSize this) = false ->
       numChildrenToSpawn p' = one /\
       multiplicity p' = mul (multiplicity p) c).
Proof.
  intros Hc. unfold rebuffer. rewrite Hc.
  destruct (ltb (of_nat (length (buffer this))) (bufferSize this));
    cbn; eexists; (split; [reflexivity|]); cbn; repeat split; congruence.
Qed.

Lemma rebuffer_no_child this p c w score :
  gtb c zero = false -> rebuffer this p c w score = this.
Proof. intros Hc. unfold rebuffer. now rewrite Hc. Qed.

(** The (k-1)-th entry of a ledger of length k-1 is the one line 120 reads. *)
Lemma last_ledger_entry (lk : list det) (k : nat) (prev : det) :
  (2 <= k)%nat -> length lk = (k - 1)%nat -> lk !! (k - 2)%nat = Some prev ->
  last lk = Some prev.
Proof.
  intros Hk Hlen Hprev. rewrite last_lookup, Hlen.
  replace (Nat.pred (k - 1)) with (k - 2)%nat by lia. exact Hprev.
Qed.

(** C8: when the weight of the active particle is [-Infinity] once the score is
    added, [factor] leaves the observation ledger and the buffer as they
    were (the particle is not put back) and goes straight to the scheduler
    step [control]. *)
Theorem factor_dead_weight this p s cc score random random' :
  activeParticle this = Some p ->
  add (weight p) score = NInf ->
  exists this',
    factor_update this s cc score random = inr this' /\
    (forall n, obsWeights this' !! n = obsWeights this !! n) /\
    buffer this' = buffer this /\
    factor this s cc score random random' = control this' None random'.
Proof.
  intros Hact HW.
  exists (set_activeParticle (arrive p s cc score) this).
  assert (H : factor_update this s cc score random =
              inr (set_activeParticle (arrive p s cc score) this)).
  { unfold factor_update. rewrite Hact. cbn. now rewrite HW. }
  unfold factor. rewrite H. auto.
Qed.

(** C3: for the k-th arrival (k >= 2) at observation n, of finite weight W
    and multiplicity m, the entry appended to the ledger of n has
    wbar = logsumexp [log((k-1)/denom) + prevWbar, log(m/denom) + W] with
    denom = (k-1) + m, prevWbar the wbar of the (k-1)-th entry and k-1 the
    length of the ledger before the arrival. *)
Theorem factor_reference_weight this p s cc score random W k lk prev :
  activeParticle this = Some p ->
  add (weight p) score = Fin W ->
  (2 <= k)%nat ->
  obsWeights this !! newFI (factorIndex p) = Some lk ->
  length lk = (k - 1)%nat ->
  lk !! (k - 2)%nat = Some prev ->
  let m := multiplicity p in
  let denom := add (of_nat (k - 1)) m in
  exists this' d,
    factor_update this s cc score random = inr this' /\
    obsWeights this' !! newFI (factorIndex p) = Some (lk ++ [d]) /\
    wbar d =
      logsumexp [ add (log (div (of_nat (k - 1)) denom)) (wbar prev);
                  add (log (div m denom)) (Fin W) ].
Proof.
  intros Hact HW Hk Hlk Hlen Hprev m denom.
  pose proof (last_ledger_entry lk k prev Hk Hlen Hprev) as Hlast.
  rewrite (factor_later_arrival this p s cc score random W lk prev)
    by assumption.
  eexists _, _. split; [reflexivity|].
  rewrite rebuffer_obsWeights. cbn. rewrite lookup_insert_eq.
  split; [reflexivity|]. cbn. unfold next_wbar. subst denom m.
  now rewrite Hlen.
Qed.

(** C4: the resampling policy for the k-th arrival (k >= 2) of finite weight
    W and multiplicity m, with wbar the reference weight of lines 119-122 and
    logRatio = W - wbar.  If logRatio < 0: when log u < logRatio the particle
    is kept with one child (one credit, its multiplicity unchanged) and
    weight wbar, otherwise it gets no child and is dropped (the buffer is
    left as it was).  If logRatio >= 0: c is the ceiling of exp(logRatio)
    when the sum of mnk over the ledger is at most min(bufferSize, k-1) and
    the floor otherwise; the particle goes on with weight W - log c and is
    awarded c children: c credits while the buffer has room, and one credit
    with its multiplicity multiplied by c once the buffer is full.  In each
    case the appended entry holds the wbar just computed and the outcome
    (1, 0 or c) as mnk. *)
Theorem factor_resampling this p s cc score random W k lk prev :
  activeParticle this = Some p ->
  add (weight p) score = Fin W ->
  (2 <= k)%nat ->
  obsWeights this !! newFI (factorIndex p) = Some lk ->
  length lk = (k - 1)%nat ->
  lk !! (k - 2)%nat = Some prev ->
  let n := newFI (factorIndex p) in
  let m := multiplicity p in
  let denom := add (of_nat (k - 1)) m in
  let wbar' :=
    logsumexp [ add (log (div (of_nat (k - 1)) denom)) (wbar prev);
                add (log (div m denom)) (Fin W) ] in
  let logRatio := sub (Fin W) wbar' in
  let sum_mnk := fold_left (fun total d => add total (mnk d)) lk zero in
  let c :=
    if leb sum_mnk (min (bufferSize this) (of_nat (k - 1)))
    then ceil (exp logRatio) else floor (exp logRatio) in
  let room := ltb (of_nat (length (buffer this))) (bufferSize this) in
  exists this',
    factor_update this s cc score random = inr this' /\
    (ltb logRatio zero = true -> ltb (log random) logRatio = true ->
       obsWeights this' !! n = Some (lk ++ [Det wbar' one]) /\
       exists p', buffer this' = buffer this ++ [p'] /\
                  activeParticle this' = Some p' /\
                  weight p' = wbar' /\
                  numChildrenToSpawn p' = one /\ multiplicity p' = m) /\
    (ltb logRatio zero = true -> ltb (log random) logRatio = false ->
       obsWeights this' !! n = Some (lk ++ [Det wbar' zero]) /\
       buffer this' = buffer this) /\
    (leb zero logRatio = true ->
       obsWeights this' !! n = Some (lk ++ [Det wbar' c]) /\
       exists p', buffer this' = buffer this ++ [p'] /\
                  activeParticle this' = Some p' /\
                  weight p' = sub (Fin W) (log c) /\
                  (room = true ->
                     numChildrenToSpawn p' = c /\ multiplicity p' = m) /\
                  (room = false ->
                     numChildrenToSpawn p' = one /\
                     multiplicity p' = mul m c)).
Proof.
  intros Hact HW Hk Hlk Hlen Hprev n m denom wbar' logRatio sum_mnk c room.
  pose proof (last_ledger_entry lk k prev Hk Hlen Hprev) as Hlast.
  rewrite (factor_later_arrival this p s cc score random W lk prev)
    by assumption.
  eexists. split; [reflexivity|].
  rewrite rebuffer_obsWeights. cbn [obsWeights set_obsWeights].
  rewrite lookup_insert_eq.
  assert (Hwbar : next_wbar lk (wbar prev) (multiplicity p) (Fin W) = wbar').
  { unfold next_wbar. rewrite Hlen. reflexivity. }
  rewrite Hwbar.
  unfold numChildrenAndWeight, totalChildren. fold logRatio sum_mnk.
  rewrite Hlen. fold c.
  cbn [bufferSize set_obsWeights set_activeParticle].
  split; [|split].
  - intros Hlt Hu. rewrite Hlt, Hu. cbn [fst snd]. split; [reflexivity|].
    match goal with
    | |- context [rebuffer ?t ?q ?c ?w ?sc] =>
        destruct (rebuffer_children t q c w sc)
          as (p' & Hb & Ha & Hw & _ & Hy & Hn);
        [|exists p'; split; [exact Hb|split; [exact Ha|split; [exact Hw|]]]]
    end.
    { unfold gtb, one, zero. apply ltb_Fin. lra. }
    cbn [buffer bufferSize set_obsWeights set_activeParticle multiplicity
         arrive] in Hy, Hn.
    destruct (ltb (of_nat (length (buffer this))) (bufferSize this)).
    + apply Hy. reflexivity.
    + destruct Hn as [Hn1 Hn2]; [reflexivity|].
      split; [exact Hn1|]. rewrite Hn2. apply mul_one_r.
  - intros Hlt Hu. rewrite Hlt, Hu. cbn [fst snd]. split; [reflexivity|].
    rewrite rebuffer_no_child; [reflexivity|].
    unfold gtb, zero. simpl. rdec; reflexivity.
  - intros Hge. rewrite (leb_zero_not_ltb _ Hge). cbn [fst snd].
    split; [reflexivity|].
    match goal with
    | |- context [rebuffer ?t ?q ?c ?w ?sc] =>
        destruct (rebuffer_children t q c w sc)
          as (p' & Hb & Ha & Hw & _ & Hy & Hn);
        [|exists p'; split; [exact Hb|split; [exact Ha|split; [exact Hw|]]]]
    end.
    { subst c.
      destruct (leb sum_mnk _); auto using ceil_exp_pos, floor_exp_pos. }
    cbn [buffer bufferSize set_obsWeights set_activeParticle multiplicity
         arrive] in Hy, Hn.
    split; assumption.
Qed.

End Factor.

Lemma leb_one_gtb_zero (c : num) : leb one c = true -> gtb c zero = true.
Proof.
  destruct c; simpl; try congruence.
  destruct (Rle_dec 1 r); [|congruence]. intros _. rdec; reflexivity.
Qed.

Lemma leb_not_ltb (x y : num) : leb x y = true -> ltb y x = false.
Proof.
  destruct x, y; simpl; try congruence.
  destruct (Rle_dec r r0); [|congruence]. intros _. rdec; reflexivity.
Qed.

Section Weights.

Context {Cont Store Value : Type}.
Implicit Types (this that : coroutine Cont Store Value).
Implicit Types (p q : particle Cont Store Value).
Implicit Types (s : Store) (cc : Cont).

Lemma not_own_extension (b : list (particle Cont Store Value)) p :
  b <> b ++ [p].
Proof.
  intros H. apply (f_equal length) in H. rewrite length_app in H.
  simpl in H. lia.
Qed.

(** Whenever [factor] appends to the buffer, what it appends is the active
    particle with the final weight of lines 152-154. *)
Lemma factor_pushes_final_weight this p s cc score random this' p' :
  activeParticle this = Some p ->
  factor_update this s cc score random = inr this' ->
  buffer this' = buffer this ++ [p'] ->
  activeParticle this' = Some p' /\
  finalWeight p' = add (add (log (multiplicity p')) (weight p')) score.
Proof.
  intros Hact Hf Hb. unfold factor_update in Hf. rewrite Hact in Hf.
  cbn in Hf.
  destruct (eqb (add (weight p) score) NInf).
  { inversion Hf; subst this'. now apply not_own_extension in Hb. }
  destruct (obsWeights this !! newFI (factorIndex p)) as [lk|].
  2:{ inversion Hf; subst this'. now apply not_own_extension in Hb. }
  destruct (last lk) as [prev|]; [|discriminate].
  inversion Hf as [Hthis']; clear Hf.
  match type of Hthis' with
  | rebuffer ?t ?q ?c ?w ?sc = _ =>
      destruct (gtb c zero) eqn:Hc;
      [destruct (rebuffer_children t q c w sc Hc)
         as (p1 & Hb1 & Ha1 & Hw1 & Hf1 & _)
      |rewrite (rebuffer_no_child t q c w sc Hc) in Hthis']
  end.
  - subst this'. rewrite Hb1 in Hb. cbn in Hb.
    apply app_inj_tail in Hb as [_ <-].
    split; [exact Ha1|]. rewrite Hw1. exact Hf1.
  - subst this'. now apply not_own_extension in Hb.
Qed.

(** C2 (amended): when [factor] awards c >= 1 children while the buffer holds
    bufferSize records or more, the survivor's multiplicity is multiplied by
    c, its numChildrenToSpawn is set to 1, and the survivor is appended to the
    buffer as one record: the buffer grows by exactly one. *)
Theorem factor_full_buffer this p s cc score random W lk prev :
  activeParticle this = Some p ->
  add (weight p) score = Fin W ->
  obsWeights this !! newFI (factorIndex p) = Some lk ->
  last lk = Some prev ->
  let wbar' := next_wbar lk (wbar prev) (multiplicity p) (Fin W) in
  let c := fst (numChildrenAndWeight (bufferSize this) lk wbar' (Fin W) random) in
  leb one c = true ->
  leb (bufferSize this) (of_nat (length (buffer this))) = true ->
  exists this' p',
    factor_update this s cc score random = inr this' /\
    buffer this' = buffer this ++ [p'] /\
    multiplicity p' = mul (multiplicity p) c /\
    numChildrenToSpawn p' = one /\
    length (buffer this') = S (length (buffer this)).
Proof.
  intros Hact HW Hlk Hprev wbar' c Hc Hfull.
  rewrite (factor_later_arrival this p s cc score random W lk prev)
    by assumption.
  fold wbar' c.
  match goal with
  | |- context [rebuffer ?t ?q ?c ?w ?sc] =>
      destruct (rebuffer_children t q c w sc (leb_one_gtb_zero _ Hc))
        as (p' & Hb & _ & _ & _ & _ & Hn)
  end.
  cbn [buffer bufferSize set_obsWeights set_activeParticle] in Hb, Hn.
  destruct (Hn (leb_not_ltb _ _ Hfull)) as [Hn1 Hn2].
  eexists _, p'. split; [reflexivity|]. rewrite Hb.
  repeat split; try assumption.
  rewrite length_app. simpl. lia.
Qed.

End Weights.

(* ===================================================================== *)
(** ** [control] and the constructor *)
(* ===================================================================== *)

Lemma deleteIndex_not_exported : "deleteIndex"%string ∉ util_exports.
Proof.
  unfold util_exports. intros H.
  repeat (apply elem_of_cons in H as [H|H]; [discriminate|]).
  now apply elem_of_nil in H.
Qed.

Lemma eqb_of_nat (a b : nat) : eqb (of_nat a) (of_nat b) = bool_decide (a = b).
Proof.
  unfold of_nat. simpl. destruct (Req_dec_T (INR a) (INR b)) as [E|E].
  - apply INR_eq in E. now rewrite bool_decide_eq_true_2.
  - rewrite bool_decide_eq_false_2; [reflexivity|]. intros ->. now apply E.
Qed.

(** Line 76: the draw [random] selects [ix] exactly when it falls into the
    [ix]-th of the [len + 1] equal parts of the unit interval. *)
Lemma draw_index (len ix : nat) (u : R) :
  INR ix <= INR (len + 1) * u < INR ix + 1 ->
  floor (mul (of_nat (len + 1)) (Fin u)) = of_nat ix.
Proof.
  intros H. unfold of_nat. cbn [mul].
  rewrite (floor_Fin_between _ (Z.of_nat ix)).
  - now rewrite <- INR_IZR_INZ.
  - now rewrite <- INR_IZR_INZ.
Qed.

Lemma draw_index_bounded (len : nat) (u : R) :
  0 <= u < 1 ->
  exists ix, (ix <= len)%nat /\
             floor (mul (of_nat (len + 1)) (Fin u)) = of_nat ix.
Proof.
  intros Hu. unfold of_nat. cbn [mul floor].
  set (x := INR (len + 1) * u).
  assert (Hlen : INR (len + 1) = INR len + 1) by (rewrite plus_INR; simpl; lra).
  pose proof (pos_INR len) as Hpos.
  assert (Hx : 0 <= x < INR len + 1) by (unfold x; rewrite Hlen; nra).
  destruct (base_Int_part x) as [Hlo Hhi].
  assert (0 <= Int_part x)%Z.
  { apply Z.lt_succ_r, lt_IZR. rewrite succ_IZR. lra. }
  assert (Int_part x < Z.of_nat len + 1)%Z.
  { apply lt_IZR. rewrite plus_IZR, <- INR_IZR_INZ. lra. }
  exists (Z.to_nat (Int_part x)). split; [lia|].
  now rewrite INR_IZR_INZ, Z2Nat.id.
Qed.

Lemma seed_count (b : R) (z : Z) :
  IZR z <= b * 3 / 5 < IZR z + 1 ->
  iterations (floor (div (mul (Fin b) (Fin 3)) (Fin 5))) = Some (Z.to_nat z).
Proof.
  intros H. cbn [mul div].
  destruct (Req_dec_T 5 0); [lra|].
  rewrite (floor_Fin_between _ z H). cbn [iterations].
  now rewrite <- opp_IZR, Int_part_IZR, Z.opp_involutive.
Qed.

Lemma no_seed (bufSize : num) :
  leb bufSize one = true ->
  iterations (floor (div (mul bufSize (Fin 3)) (Fin 5))) = Some 0%nat.
Proof.
  destruct bufSize as [| | |b]; cbn [leb one]; try congruence.
  - intros _. cbn. unfold sgn. rdec. cbn. rdec. reflexivity.
  - destruct (Rle_dec b 1) as [Hb|]; [intros _|congruence].
    cbn [mul div]. destruct (Req_dec_T 5 0); [lra|]. cbn [floor iterations].
    rewrite <- opp_IZR, Int_part_IZR, Z.opp_involutive.
    destruct (base_Int_part (b * 3 / 5)) as [Hlo _].
    assert (Int_part (b * 3 / 5) < 1)%Z by (apply lt_IZR; lra).
    f_equal. lia.
Qed.

Section Control.

Context {Cont Store Value : Type}.
Implicit Types (this : coroutine Cont Store Value).
Implicit Types (p launchP : particle Cont Store Value).

(** The draw selects the slot past the buffer: a fresh particle runs. *)
Lemma control_fresh this numP (u : R) :
  INR (length (buffer this)) <= INR (length (buffer this) + 1) * u
    < INR (length (buffer this)) + 1 ->
  control this numP (Fin u) =
    launch (counted this numP) (initParticle (this_store this) (exitK this)).
Proof.
  intros H. unfold control. cbn [buffer counted set_numParticles].
  rewrite (draw_index _ _ _ H), eqb_of_nat, bool_decide_eq_true_2 by reflexivity.
  reflexivity.
Qed.

(** The draw selects a buffered particle with more than one child credit: a
    copy of it runs and the particle stays, with one credit less. *)
Lemma control_clone this numP (u : R) (ix : nat) launchP :
  INR ix <= INR (length (buffer this) + 1) * u < INR ix + 1 ->
  buffer this !! ix = Some launchP ->
  gtb (numChildrenToSpawn launchP) one = true ->
  control this numP (Fin u) =
    launch
      (set_buffer
         (<[ix := set_numChildrenToSpawn (sub (numChildrenToSpawn launchP) one)
                    launchP]> (buffer this))
         (counted this numP))
      (copyOneParticle launchP).
Proof.
  intros H Hix Hc. unfold control. cbn [buffer counted set_numParticles].
  rewrite (draw_index _ _ _ H), eqb_of_nat.
  rewrite bool_decide_eq_false_2
    by (apply lookup_lt_Some in Hix; lia).
  rewrite to_index_of_nat, Hix, Hc. reflexivity.
Qed.

(** The draw selects a buffered particle with at most one child credit:
    line 86 calls [util.deleteIndex], which util.js does not have. *)
Lemma control_remove this numP (u : R) (ix : nat) launchP :
  INR ix <= INR (length (buffer this) + 1) * u < INR ix + 1 ->
  buffer this !! ix = Some launchP ->
  gtb (numChildrenToSpawn launchP) one = false ->
  control this numP (Fin u) =
    Throw (TypeError "util.deleteIndex is not a function").
Proof.
  intros H Hix Hc. unfold control. cbn [buffer counted set_numParticles].
  rewrite (draw_index _ _ _ H), eqb_of_nat.
  rewrite bool_decide_eq_false_2
    by (apply lookup_lt_Some in Hix; lia).
  rewrite to_index_of_nat, Hix, Hc. reflexivity.
Qed.

(** The constructor seeds [n] particles and takes the first step. *)
Lemma aSMC_seeds (s : Store) (wpplFn : Cont) (numP bufSize random : num) n :
  iterations (floor (div (mul bufSize (Fin 3)) (Fin 5))) = Some n ->
  aSMC (Value:=Value) s wpplFn numP bufSize random =
    control
      (Coroutine (replicate n (initParticle s wpplFn)) bufSize zero ∅ []
         wpplFn s (clone s) None)
      (Some numP) random.
Proof. intros H. unfold aSMC. now rewrite H. Qed.

(** With a buffer size of at most one no particle is seeded, and the first
    step runs a fresh particle. *)
Lemma aSMC_unseeded (s : Store) (wpplFn : Cont) (numP bufSize : num) (u : R) :
  leb bufSize one = true ->
  0 <= u < 1 ->
  aSMC (Value:=Value) s wpplFn numP bufSize (Fin u) =
    Resume
      (Coroutine [] bufSize (add zero numP) ∅ [] wpplFn s (clone s)
         (Some (initParticle s wpplFn)))
      wpplFn (clone s).
Proof.
  intros Hb Hu. rewrite (aSMC_seeds _ _ _ _ _ 0) by now apply no_seed.
  rewrite control_fresh; [reflexivity|]. cbn. lra.
Qed.

End Control.

(* ===================================================================== *)
(** ** [logsumexp] *)
(* ===================================================================== *)

Lemma max_NInf_l (x : num) : max NInf x = x.
Proof. destruct x; reflexivity. Qed.

Lemma Math_max_apply_singleton (x : num) : Math_max_apply [x] = x.
Proof. unfold Math_max_apply. cbn. apply max_NInf_l. Qed.

Lemma Math_max_apply_NInf (a : list num) :
  Forall (fun x => x = NInf) a -> Math_max_apply a = NInf.
Proof.
  unfold Math_max_apply. induction 1 as [|x a -> _ IH]; [reflexivity|].
  cbn. exact IH.
Qed.

(** The loop of lines 56-58 over entries that are all [-Infinity] leaves
    the sum it starts from. *)
Lemma add_zero_r (x : num) : add x zero = x.
Proof. destruct x; try reflexivity. apply add_zero_r_Fin. Qed.

Lemma sum_loop_NInf (a : list num) (m sum0 : num) :
  Forall (fun x => x = NInf) a ->
  fold_left
    (fun sum ai => add sum (if eqb ai NInf then zero else exp (sub ai m)))
    a sum0 = sum0.
Proof.
  intros H. revert sum0. induction H as [|x a -> _ IH]; intros sum0.
  - reflexivity.
  - cbn [fold_left eqb]. rewrite add_zero_r. apply IH.
Qed.

Lemma logsumexp_NInf (a : list num) :
  Forall (fun x => x = NInf) a -> logsumexp a = NInf.
Proof.
  intros H. unfold logsumexp. cbv zeta. rewrite (Math_max_apply_NInf a H).
  rewrite (sum_loop_NInf a NInf zero H).
  cbn. rdec. reflexivity.
Qed.

Lemma logsumexp_singleton (x : num) :
  x <> PInf -> logsumexp [x] = x.
Proof.
  intros Hx. unfold logsumexp. cbv zeta. rewrite Math_max_apply_singleton.
  destruct x as [| | |r]; [reflexivity|congruence|..].
  - cbn. rdec. reflexivity.
  - cbn. replace (r + - r) with 0 by lra. rewrite exp_0.
    replace (0 + 1) with 1 by lra. rdec. rewrite ln_1. f_equal. lra.
Qed.

(** Two finite entries: the result is finite and at least the larger one. *)
Lemma logsumexp_pair (a b : R) :
  exists w, logsumexp [Fin a; Fin b] = Fin w /\ a <= w /\ b <= w.
Proof.
  unfold logsumexp, Math_max_apply. cbn [fold_left].
  rewrite max_NInf_l.
  assert (Hm : exists m, max (Fin a) (Fin b) = Fin m /\ a <= m /\ b <= m /\
                         (m = a \/ m = b)).
  { cbn. destruct (Rlt_dec a b); eexists; (split; [reflexivity|]); lra. }
  destruct Hm as (m & -> & Ha & Hb & Hm). cbn.
  set (S := 0 + Rtrigo_def.exp (a + - m) + Rtrigo_def.exp (b + - m)).
  assert (HS : 1 <= S).
  { unfold S. pose proof (exp_pos (a + - m)). pose proof (exp_pos (b + - m)).
    destruct Hm as [-> | ->].
    - replace (a + - a) with 0 in * by lra. rewrite exp_0. lra.
    - replace (b + - b) with 0 in * by lra. rewrite exp_0. lra. }
  destruct (Rlt_dec S 0); [lra|]. destruct (Req_dec_T S 0); [lra|].
  eexists. split; [reflexivity|].
  assert (0 <= ln S).
  { rewrite <- ln_1. destruct (Req_dec_T 1 S) as [<-|]; [lra|].
    left. apply ln_increasing; lra. }
  lra.
Qed.

Lemma exp_1_gt_2 : 2 < Rtrigo_def.exp 1.
Proof. pose proof (exp_ineq1 1). lra. Qed.

Lemma ln_above_minus_1 (q : R) : 1 / 2 <= q -> -1 < ln q.
Proof.
  intros Hq. replace (-1) with (- (1)) by lra.
  rewrite <- (ln_exp (- (1))).
  apply ln_increasing; [apply exp_pos|].
  rewrite exp_Ropp. pose proof exp_1_gt_2.
  assert (/ Rtrigo_def.exp 1 < / 2) by (apply Rinv_lt_contravar; lra).
  lra.
Qed.

(** The reference weight after [n >= 1] arrivals, for an arrival of
    multiplicity one: finite, and more than the previous one minus one. *)
Lemma next_wbar_bound (lk : list det) (v W : R) :
  lk <> [] ->
  exists x, next_wbar lk (Fin v) one (Fin W) = Fin x /\ -1 + v < x.
Proof.
  intros Hlk. unfold next_wbar, of_nat, one.
  assert (Hn : 1 <= INR (length lk)).
  { destruct lk; [congruence|]. cbn [length]. rewrite S_INR.
    pose proof (pos_INR (length lk)). lra. }
  set (n := INR (length lk)) in *. cbn [add div].
  destruct (Req_dec_T (n + 1) 0); [lra|].
  assert (Hq : n / (n + 1) * (n + 1) = n) by (field; lra).
  assert (Hq' : 1 / (n + 1) * (n + 1) = 1) by (field; lra).
  assert (1 / 2 <= n / (n + 1)) by nra.
  assert (0 < 1 / (n + 1)) by nra.
  cbn [log].
  destruct (Rlt_dec (n / (n + 1)) 0); [lra|].
  destruct (Req_dec_T (n / (n + 1)) 0); [lra|].
  destruct (Rlt_dec (1 / (n + 1)) 0); [lra|].
  destruct (Req_dec_T (1 / (n + 1)) 0); [lra|].
  cbn [add].
  destruct (logsumexp_pair (ln (n / (n + 1)) + v) (ln (1 / (n + 1)) + W))
    as (w & -> & Hw & _).
  exists w. split; [reflexivity|].
  pose proof (ln_above_minus_1 (n / (n + 1))). lra.
Qed.

(** Two finite entries: the exponential of the result is the sum of their
    exponentials. *)
Lemma logsumexp_pair_exp (a b : R) :
  exists w, logsumexp [Fin a; Fin b] = Fin w /\
            Rtrigo_def.exp w = Rtrigo_def.exp a + Rtrigo_def.exp b.
Proof.
  unfold logsumexp, Math_max_apply. cbn [fold_left].
  rewrite max_NInf_l.
  assert (Hm : exists m, max (Fin a) (Fin b) = Fin m /\ (m = a \/ m = b)).
  { cbn. destruct (Rlt_dec a b); eexists; (split; [reflexivity|]); lra. }
  destruct Hm as (m & -> & Hm). cbn.
  set (S := 0 + Rtrigo_def.exp (a + - m) + Rtrigo_def.exp (b + - m)).
  assert (HS : 0 < S).
  { unfold S. pose proof (exp_pos (a + - m)). pose proof (exp_pos (b + - m)).
    lra. }
  destruct (Rlt_dec S 0); [lra|]. destruct (Req_dec_T S 0); [lra|].
  eexists. split; [reflexivity|].
  rewrite exp_plus, exp_ln by exact HS. unfold S.
  rewrite !Rmult_plus_distr_l, <- !exp_plus.
  replace (m + (a + - m)) with a by lra.
  replace (m + (b + - m)) with b by lra. lra.
Qed.

(** The reference weight after [n >= 1] arrivals, for an arrival of
    multiplicity one: its exponential is the mean of exp(prevWbar), counted
    [n] times, and exp(W). *)
Lemma next_wbar_exp (lk : list det) (v W : R) :
  lk <> [] ->
  exists x, next_wbar lk (Fin v) one (Fin W) = Fin x /\
            Rtrigo_def.exp x =
              INR (length lk) / (INR (length lk) + 1) * Rtrigo_def.exp v +
              1 / (INR (length lk) + 1) * Rtrigo_def.exp W.
Proof.
  intros Hlk. unfold next_wbar, of_nat, one.
  assert (Hn : 1 <= INR (length lk)).
  { destruct lk; [congruence|]. cbn [length]. rewrite S_INR.
    pose proof (pos_INR (length lk)). lra. }
  set (n := INR (length lk)) in *. cbn [add div].
  destruct (Req_dec_T (n + 1) 0); [lra|].
  assert (Hq : n / (n + 1) * (n + 1) = n) by (field; lra).
  assert (Hq' : 1 / (n + 1) * (n + 1) = 1) by (field; lra).
  assert (0 < n / (n + 1)) by nra.
  assert (0 < 1 / (n + 1)) by nra.
  cbn [log].
  destruct (Rlt_dec (n / (n + 1)) 0); [lra|].
  destruct (Req_dec_T (n / (n + 1)) 0); [lra|].
  destruct (Rlt_dec (1 / (n + 1)) 0); [lra|].
  destruct (Req_dec_T (1 / (n + 1)) 0); [lra|].
  cbn [add].
  destruct (logsumexp_pair_exp (ln (n / (n + 1)) + v) (ln (1 / (n + 1)) + W))
    as (w & -> & Hw).
  exists w. split; [reflexivity|].
  rewrite Hw, !exp_plus, !exp_ln by assumption. reflexivity.
Qed.

(** An arrival above the previous reference weight is above the new one. *)
Lemma next_wbar_below (lk : list det) (v W : R) :
  lk <> [] -> v < W ->
  exists x, next_wbar lk (Fin v) one (Fin W) = Fin x /\ x < W.
Proof.
  intros Hlk HvW. destruct (next_wbar_exp lk v W Hlk) as (x & Hx & He).
  exists x. split; [exact Hx|].
  apply exp_lt_inv. rewrite He.
  assert (Hn : 1 <= INR (length lk)).
  { destruct lk; [congruence|]. cbn [length]. rewrite S_INR.
    pose proof (pos_INR (length lk)). lra. }
  set (n := INR (length lk)) in *.
  pose proof (exp_increasing v W HvW) as Hinc.
  assert (Hq : n / (n + 1) + 1 / (n + 1) = 1) by (field; lra).
  assert (Hp : 0 < n / (n + 1)).
  { apply Rdiv_lt_0_compat; lra. }
  replace (Rtrigo_def.exp W)
    with (n / (n + 1) * Rtrigo_def.exp W +
          1 / (n + 1) * Rtrigo_def.exp W) at 2
    by (rewrite <- Rmult_plus_distr_r, Hq; lra).
  apply Rplus_lt_compat_r. apply Rmult_lt_compat_l; assumption.
Qed.

(** The ceiling of exp(r) is two or more for a positive [r]. *)
Lemma ceil_exp_above_one (r : R) :
  0 < r -> gtb (ceil (exp (Fin r))) one = true.
Proof.
  intros Hr.
  assert (He : 1 + r < Rtrigo_def.exp r) by (apply exp_ineq1; lra).
  cbn [exp ceil].
  destruct (base_Int_part (- Rtrigo_def.exp r)) as [H _].
  assert (Int_part (- Rtrigo_def.exp r) < -1)%Z by (apply lt_IZR; lra).
  unfold gtb, one. apply ltb_Fin. apply IZR_lt. lia.
Qed.

(** An arrival below the reference weight that draws [Math.random() = 0]
    is kept with one child: [Math.log(0)] is [-Infinity]. *)
Lemma keep_on_zero_draw (bufSize : num) (lk : list det) (x W : R) :
  W < x ->
  numChildrenAndWeight bufSize lk (Fin x) (Fin W) (Fin 0) = (one, Fin x).
Proof.
  intros H. unfold numChildrenAndWeight. cbn [sub neg add zero ltb].
  destruct (Rlt_dec (W + - x) 0); [|lra].
  cbn [log]. destruct (Rlt_dec 0 0); [lra|].
  destruct (Req_dec_T 0 0); [|lra]. reflexivity.
Qed.

(* ===================================================================== *)
(** ** Runs *)
(* ===================================================================== *)

Section Runs.

Context {Cont Store Value : Type}.
Implicit Types (this : coroutine Cont Store Value).
Implicit Types (p : particle Cont Store Value).

Lemma rebuffer_fixed_fields this p c w score :
  bufferSize (rebuffer this p c w score) = bufferSize this /\
  this_store (rebuffer this p c w score) = this_store this /\
  exitK (rebuffer this p c w score) = exitK this /\
  numParticles (rebuffer this p c w score) = numParticles this /\
  exitedParticles (rebuffer this p c w score) = exitedParticles this.
Proof. unfold rebuffer. repeat case_match; cbn; auto. Qed.

Lemma run_snoc (o : outcome Cont Store Value) cs c :
  run o (cs ++ [c]) = after (run o cs) c.
Proof. unfold run. now rewrite fold_left_app. Qed.

(** What a run leaves is reachable. *)
Lemma reachable_run (s : Store) (wpplFn : Cont) numP bufSize random cs this :
  object_of (run (aSMC s wpplFn numP bufSize random) cs) = Some this ->
  reachable this.
Proof.
  revert this. induction cs as [|c cs IH] using rev_ind; intros this H.
  - cbn in H. eapply reachable_aSMC. exact H.
  - rewrite run_snoc in H. unfold after in H.
    destruct (object_of (run _ cs)) as [this0|] eqn:E.
    + eapply reachable_call; [apply IH; reflexivity|exact H].
    + rewrite E in H. discriminate.
Qed.

End Runs.


(* ===================================================================== *)
(** ** Child credits and multiplicities along a run *)
(* ===================================================================== *)

Lemma counting_one : counting one.
Proof. right. exists 1%Z. split; [lia|reflexivity]. Qed.

Lemma counting_ge_1 (x : num) : counting x -> leb one x = true.
Proof.
  intros [-> | (z & Hz & ->)]; [reflexivity|].
  apply leb_Fin. now apply IZR_le.
Qed.

Lemma counting_integer (z : Z) :
  gtb (Fin (IZR z)) zero = true -> counting (Fin (IZR z)).
Proof.
  intros H. apply ltb_Fin in H. apply lt_IZR in H.
  right. exists z. split; [lia|reflexivity].
Qed.

Lemma counting_floor (x : num) : gtb (floor x) zero = true -> counting (floor x).
Proof.
  destruct x; cbn [floor]; try (cbn; congruence); [now left|].
  apply counting_integer.
Qed.

Lemma counting_ceil (x : num) : gtb (ceil x) zero = true -> counting (ceil x).
Proof.
  destruct x; cbn [ceil]; try (cbn; congruence); [now left|].
  apply counting_integer.
Qed.

Lemma counting_mul (x y : num) : counting x -> counting y -> counting (mul x y).
Proof.
  assert (Hs : forall z, (1 <= z)%Z -> sgn (IZR z) = Gt).
  { intros z Hz. apply IZR_le in Hz. unfold sgn. rdec; reflexivity. }
  intros [-> | (a & Ha & ->)] [-> | (b & Hb & ->)]; cbn.
  - now left.
  - rewrite (Hs b Hb). now left.
  - rewrite (Hs a Ha). now left.
  - right. exists (a * b)%Z. split; [nia|]. now rewrite mult_IZR.
Qed.

Lemma counting_pred (x : num) :
  counting x -> gtb x one = true -> counting (sub x one).
Proof.
  intros [-> | (z & Hz & ->)] H; [now left|].
  apply ltb_Fin in H. apply lt_IZR in H.
  right. exists (z - 1)%Z. split; [lia|].
  cbn. f_equal. rewrite minus_IZR. lra.
Qed.

Lemma gtb_zero_one : gtb zero one = false.
Proof. cbn. rdec; reflexivity. Qed.

Lemma gtb_zero_zero : gtb zero zero = false.
Proof. cbn. rdec; reflexivity. Qed.

(** The child count of lines 124-136 is a positive integer or [Infinity]
    whenever it passes the test of line 142. *)
Lemma counting_children (bufSize : num) (lk : list det) (wbar W random : num) :
  gtb (fst (numChildrenAndWeight bufSize lk wbar W random)) zero = true ->
  counting (fst (numChildrenAndWeight bufSize lk wbar W random)).
Proof.
  unfold numChildrenAndWeight.
  destruct (ltb (sub W wbar) zero).
  - destruct (ltb (log random) (sub W wbar)); cbn [fst].
    + intros _. apply counting_one.
    + rewrite gtb_zero_zero. discriminate.
  - cbn [fst]. destruct (leb (totalChildren lk) _).
    + apply counting_ceil.
    + apply counting_floor.
Qed.

Section Invariant.

Context {Cont Store Value : Type}.
Implicit Types (this : coroutine Cont Store Value).
Implicit Types (p : particle Cont Store Value).

Lemma counts_ok_control this numP random this' :
  counts_ok this ->
  object_of (control this numP random) = Some this' ->
  counts_ok this'.
Proof.
  intros [Hbuf Hact]. unfold control.
  set (this0 := counted this numP).
  destruct (eqb _ _).
  { intros [= <-]. split; [exact Hbuf|].
    intros p [= <-]. apply counting_one. }
  destruct (to_index _) as [ix|]; [|discriminate].
  cbn [buffer this0 counted set_numParticles].
  destruct (buffer this !! ix) as [launchP|] eqn:Hix; [|discriminate].
  destruct (gtb (numChildrenToSpawn launchP) one) eqn:Hc; [|discriminate].
  intros [= <-].
  pose proof (proj1 (Forall_lookup _ _) Hbuf ix launchP Hix) as [Hm Hn].
  split.
  - cbn. apply Forall_insert; [exact Hbuf|]. split; [exact Hm|].
    left. destruct Hn as [Hn | ->].
    + now apply counting_pred.
    + cbn [numChildrenToSpawn initParticle] in Hc.
      rewrite gtb_zero_one in Hc. discriminate.
  - intros p [= <-]. exact Hm.
Qed.

Lemma counts_ok_factor_update this s cc score random this' :
  counts_ok this ->
  factor_update this s cc score random = inr this' ->
  counts_ok this'.
Proof.
  intros [Hbuf Hact]. unfold factor_update.
  destruct (activeParticle this) as [p|] eqn:Hp; [|discriminate].
  specialize (Hact p eq_refl). cbn zeta.
  destruct (eqb _ _).
  { intros [= <-]. split; [exact Hbuf|]. now intros ? [= <-]. }
  cbn [obsWeights set_activeParticle].
  destruct (obsWeights this !! _) as [lk|].
  2:{ intros [= <-]. split; [exact Hbuf|]. now intros ? [= <-]. }
  destruct (last lk) as [prev|]; [|discriminate].
  intros [= <-].
  match goal with
  | |- counts_ok (rebuffer ?t ?q ?c ?w ?sc) =>
      pose proof (rebuffer_fixed_fields t q c w sc) as (_ & F2 & F3 & _);
      destruct (gtb c zero) eqn:Hc;
      [destruct (rebuffer_children t q c w sc Hc)
         as (p' & Hb & Ha & _ & _ & Hy & Hn);
       apply counting_children in Hc
      |rewrite (rebuffer_no_child t q c w sc Hc)]
  end.
  - cbn [buffer bufferSize this_store exitK set_obsWeights set_activeParticle
         multiplicity arrive] in Hb, Hy, Hn, F2, F3.
    assert (Hp' : counting (multiplicity p') /\
                  counting (numChildrenToSpawn p')).
    { destruct (ltb (of_nat (length (buffer this))) (bufferSize this)).
      - destruct (Hy eq_refl) as [-> ->]. split; assumption.
      - destruct (Hn eq_refl) as [-> ->].
        split; [now apply counting_mul|apply counting_one]. }
    split.
    + rewrite Hb, F2, F3. apply Forall_app. split; [exact Hbuf|].
      apply Forall_singleton. split; [apply Hp'|left; apply Hp'].
    + rewrite Ha. intros ? [= <-]. apply Hp'.
  - split; [exact Hbuf|]. now intros ? [= <-].
Qed.

Lemma counts_ok_exit_update this s (retval : Value) this' :
  counts_ok this ->
  exit_update this s retval = inr this' ->
  counts_ok this'.
Proof.
  intros [Hbuf Hact]. unfold exit_update.
  destruct (activeParticle this) as [p|] eqn:Hp; [|discriminate].
  intros [= <-]. split; [exact Hbuf|].
  intros ? [= <-]. cbn. apply Hact. reflexivity.
Qed.

Lemma counts_ok_dispatch this c this' :
  counts_ok this ->
  object_of (dispatch this c) = Some this' ->
  counts_ok this'.
Proof.
  intros Hok. destruct c as [s cc score random random'|s retval random|numP random];
    cbn [dispatch].
  - unfold factor.
    destruct (factor_update this s cc score random) as [e|this1] eqn:Hf;
      [discriminate|].
    apply counts_ok_control. eapply counts_ok_factor_update; eassumption.
  - unfold exit.
    destruct (exit_update this s retval) as [e|this1] eqn:Hf; [discriminate|].
    pose proof (counts_ok_exit_update _ _ _ _ Hok Hf) as Hok1.
    destruct (ltb _ _).
    + now apply counts_ok_control.
    + now intros [= <-].
  - now apply counts_ok_control.
Qed.

Lemma counts_ok_reachable this : reachable this -> counts_ok this.
Proof.
  induction 1 as [s wpplFn numP bufSize random this H|this c this' _ IH H].
  - unfold aSMC in H. destruct (iterations _) as [n|]; [|discriminate].
    eapply counts_ok_control; [|exact H]. split; [|discriminate].
    cbn. apply Forall_replicate. split; [apply counting_one|now right].
  - eapply counts_ok_dispatch; eassumption.
Qed.

End Invariant.

(* ===================================================================== *)
(** ** Final weights along a run *)
(* ===================================================================== *)

Section LastScores.

Context {Cont Store Value : Type}.
Implicit Types (this : coroutine Cont Store Value).
Implicit Types (p q : particle Cont Store Value).
Implicit Types (g : lastScores).

(** [factor] leaves the buffer as it was or appends one record, whose final
    weight is that of lines 152-154 for the score of the call. *)
Lemma factor_update_buffer this (s : Store) (cc : Cont) (score random : num)
    this' :
  factor_update this s cc score random = inr this' ->
  buffer this' = buffer this \/
  exists p', buffer this' = buffer this ++ [p'] /\ final_for score p'.
Proof.
  unfold factor_update.
  destruct (activeParticle this) as [p|]; [|discriminate]. cbn zeta.
  destruct (eqb _ _).
  { intros [= <-]. left. reflexivity. }
  cbn [obsWeights set_activeParticle].
  destruct (obsWeights this !! newFI (factorIndex p)) as [lk|].
  2:{ intros [= <-]. left. reflexivity. }
  destruct (last lk) as [prev|]; [|discriminate].
  intros [= <-].
  match goal with
  | |- context [rebuffer ?t ?q ?c ?w ?sc] =>
      destruct (gtb c zero) eqn:Hc;
      [destruct (rebuffer_children t q c w sc Hc)
         as (p' & Hb & _ & Hw & HF & _)
      |rewrite (rebuffer_no_child t q c w sc Hc)]
  end.
  - right. exists p'. split; [exact Hb|].
    unfold final_for. rewrite Hw. exact HF.
  - left. reflexivity.
Qed.

Lemma control_lastScores_buffer this (random : num) g :
  lastScore_buffer (control_lastScores this random g) = lastScore_buffer g.
Proof.
  unfold control_lastScores. destruct (eqb _ _); [reflexivity|].
  destruct (to_index _); reflexivity.
Qed.

Lemma lastScores_ok_control this (numP : option num) (random : num) g this' :
  length (lastScore_buffer g) = length (buffer this) ->
  (forall ix p score,
     buffer this !! ix = Some p ->
     lastScore_buffer g !! ix = Some (Some score) -> final_for score p) ->
  object_of (control this numP random) = Some this' ->
  lastScores_ok this' (control_lastScores this random g).
Proof.
  intros Hlen Hbuf. unfold control, control_lastScores.
  cbn [buffer counted set_numParticles].
  destruct (eqb _ _).
  { intros [= <-]. split; [exact Hlen|]. split; [exact Hbuf|].
    intros p score _ H. discriminate H. }
  destruct (to_index _) as [ix|]; [|discriminate].
  destruct (buffer this !! ix) as [launchP|] eqn:Hix; [|discriminate].
  destruct (gtb _ _); [|discriminate].
  intros [= <-].
  split; [cbn; now rewrite length_insert|]. split.
  - cbn [buffer set_buffer set_activeParticle lastScore_buffer].
    intros j p score Hj Hg. destruct (decide (ix = j)) as [<-|Hne].
    + rewrite list_lookup_insert_eq in Hj by (eapply lookup_lt_Some; eauto).
      inversion Hj; subst p. exact (Hbuf ix launchP score Hix Hg).
    + rewrite list_lookup_insert_ne in Hj by exact Hne. eauto.
  - cbn [activeParticle set_activeParticle lastScore_active].
    intros p score [= <-] Hg.
    destruct (lastScore_buffer g !! ix) as [y|] eqn:Hy; [|discriminate Hg].
    change (y = Some score) in Hg. subst y.
    exact (Hbuf ix launchP score Hix Hy).
Qed.

Lemma lastScores_ok_dispatch this g c this' :
  lastScores_ok this g ->
  object_of (dispatch this c) = Some this' ->
  lastScores_ok this' (dispatch_lastScores this c g).
Proof.
  intros (Hlen & Hbuf & Hact).
  destruct c as [s cc score random random'|s retval random|numP random];
    cbn [dispatch dispatch_lastScores].
  - unfold factor, factor_lastScores.
    destruct (factor_update this s cc score random) as [e|this1] eqn:Hf;
      [discriminate|].
    destruct (factor_update_buffer _ _ _ _ _ _ Hf) as [Hb|(p' & Hb & HF)].
    + apply lastScores_ok_control; cbn [lastScore_buffer]; rewrite Hb.
      * rewrite Nat.ltb_irrefl. exact Hlen.
      * rewrite Nat.ltb_irrefl. exact Hbuf.
    + assert (Hlt : Nat.ltb (length (buffer this)) (length (buffer this1))
                    = true).
      { apply Nat.ltb_lt. rewrite Hb, length_app. simpl. lia. }
      apply lastScores_ok_control; cbn [lastScore_buffer]; rewrite Hlt.
      * rewrite Hb, !length_app, Hlen. reflexivity.
      * rewrite Hb. intros ix p sc Hp Hg.
        apply lookup_snoc_Some in Hp as [[Hix Hp]|[Hix <-]].
        -- rewrite lookup_app_l in Hg by lia. eauto.
        -- rewrite Hix, <- Hlen in Hg.
           rewrite list_lookup_middle in Hg by reflexivity.
           inversion Hg; subst sc. exact HF.
  - unfold exit, exit_lastScores.
    destruct (exit_update this s retval) as [e|this1] eqn:Hf; [discriminate|].
    assert (Hb : buffer this1 = buffer this).
    { unfold exit_update in Hf.
      destruct (activeParticle this); [|discriminate].
      inversion Hf. reflexivity. }
    destruct (ltb _ _).
    + apply lastScores_ok_control; rewrite Hb; assumption.
    + intros [= <-]. split; [now rewrite Hb|]. split.
      * rewrite Hb. exact Hbuf.
      * intros p score _ H. discriminate H.
  - now apply lastScores_ok_control.
Qed.

Lemma lastScores_ok_scored this g : scored this g -> lastScores_ok this g.
Proof.
  induction 1 as [s wpplFn numP bufSize random this H|this g c this' _ IH H].
  - split; [cbn; apply length_replicate|]. split.
    + cbn. intros ix p score _ Hg.
      apply lookup_replicate in Hg as [Hg _]. discriminate Hg.
    + intros p score _ Hg. discriminate Hg.
  - eapply lastScores_ok_dispatch; eassumption.
Qed.

(** Following the last scores changes nothing to the run. *)
Lemma scored_reachable this g : scored this g -> reachable this.
Proof.
  induction 1; [eapply reachable_aSMC|eapply reachable_call]; eassumption.
Qed.

Lemma reachable_scored this : reachable this -> exists g, scored this g.
Proof.
  induction 1 as [s wpplFn numP bufSize random this H|this c this' _ [g IH] H].
  - eexists. eapply scored_aSMC. exact H.
  - eexists. eapply scored_call; eassumption.
Qed.

(** C7 (amended): a [factor] call at a first arrival leaves the particle
    alive with one child credit and finalWeight = weight, the weight with the
    score added (line 115); a [factor] call that puts the active particle back
    into the buffer leaves it with
    finalWeight = log(multiplicity) + weight + score (lines 152-154), for the
    weight and the multiplicity as lines 142-151 left them.  Along every run,
    an active particle that goes on from a record pushed by a [factor] call
    of score lastScore has finalWeight = log(multiplicity) + weight +
    lastScore, and [exit] completes it with that value as weight. *)
Theorem finalWeight_of_survivor :
  (forall this p (s : Store) (cc : Cont) (score random : num) W,
     activeParticle this = Some p ->
     add (weight p) score = Fin W ->
     obsWeights this !! newFI (factorIndex p) = None ->
     exists this' p',
       factor_update this s cc score random = inr this' /\
       activeParticle this' = Some p' /\
       numChildrenToSpawn p' = one /\
       weight p' = Fin W /\ finalWeight p' = weight p') /\
  (forall this p (s : Store) (cc : Cont) (score random : num) this' p',
     activeParticle this = Some p ->
     factor_update this s cc score random = inr this' ->
     buffer this' = buffer this ++ [p'] ->
     activeParticle this' = Some p' /\
     finalWeight p' = add (add (log (multiplicity p')) (weight p')) score) /\
  (forall this g q lastScore,
     scored this g ->
     activeParticle this = Some q ->
     lastScore_active g = Some lastScore ->
     finalWeight q = add (add (log (multiplicity q)) (weight q)) lastScore /\
     forall (s : Store) (retval : Value),
       exists this' q',
         exit_update this s retval = inr this' /\
         exitedParticles this' = exitedParticles this ++ [q'] /\
         completed q' = true /\
         multiplicity q' = multiplicity q /\
         weight q' = add (add (log (multiplicity q)) (weight q)) lastScore).
Proof.
  split; [|split].
  - intros this p s cc score random W Hact HW Hlk.
    destruct (factor_first_arrival this p s cc score random W Hact HW Hlk)
      as (this' & p' & Hf & _ & Ha & Hw & HF & Hn & _).
    exists this', p'. repeat (split; [assumption|]). congruence.
  - intros this p s cc score random this' p' Hact Hf Hb.
    exact (factor_pushes_final_weight _ _ _ _ _ _ _ _ Hact Hf Hb).
  - intros this g q lastScore Hrun Hq Hg.
    destruct (lastScores_ok_scored _ _ Hrun) as (_ & _ & Hact).
    pose proof (Hact q lastScore Hq Hg) as HF. unfold final_for in HF.
    split; [exact HF|].
    intros s retval. unfold exit_update. rewrite Hq. eexists _, _.
    split; [reflexivity|]. cbn. repeat split. exact HF.
Qed.

End LastScores.

(* ===================================================================== *)
(** ** The concrete runs *)
(* ===================================================================== *)

Module ScenarioFacts.
Import Scenario.

Lemma start_1_runs : start_1 = Resume started_1 0%nat tt.
Proof.
  unfold start_1. rewrite (aSMC_unseeded (Value:=unit)); [reflexivity| |lra].
  apply leb_Fin. lra.
Qed.

Lemma first_factor_update :
  factor_update started_1 tt 1%nat (Fin 0) (Fin 0) = inr first_arrived.
Proof.
  unfold factor_update, started_1. cbn. rewrite lookup_empty. reflexivity.
Qed.

Lemma first_factor_runs :
  dispatch started_1 first_factor = Resume second_started 0%nat tt.
Proof.
  unfold first_factor, dispatch, factor. rewrite first_factor_update.
  rewrite control_fresh by (cbn; lra). reflexivity.
Qed.

Lemma second_started_fresh : fresh_at second_started 0 1 0.
Proof.
  unfold fresh_at. cbn. repeat split.
  eexists _, _, _. rewrite lookup_insert_eq.
  repeat split; try reflexivity. lra.
Qed.

(** A fresh particle whose score [W] is at most [v - 1] arrives at
    observation 0, draws 0 at line 126 and is put into the buffer; the draw of
    [control] then starts another fresh particle. *)
Lemma later_factor_runs (this : Obj) (len n : nat) (v W u : R) :
  fresh_at this len n v ->
  W <= v - 1 ->
  INR (len + 1) <= INR (len + 1 + 1) * u < INR (len + 1) + 1 ->
  exists this' p',
    factor_update this tt 1%nat (Fin W) (Fin 0) = inr this' /\
    buffer this' = buffer this ++ [p'] /\
    exists this'',
      dispatch this (CallFactor tt 1%nat (Fin W) (Fin 0) (Fin u)) =
        Resume this'' 0%nat tt /\
      buffer this'' = buffer this' /\
      fresh_at this'' (len + 1) (n + 1) (v - 1).
Proof.
  intros (Hlen & Hsize & Hstore & Hexit & Hact & lk & prev & x & Hlk & Hn &
          Hlast & Hx & Hv) HW Hu.
  assert (Hne : lk <> []) by (intros ->; discriminate).
  destruct (next_wbar_bound lk x (0 + W) Hne) as (x' & Hx' & Hbound).
  pose proof (factor_later_arrival this _ tt 1%nat (Fin W) (Fin 0) (0 + W)
                lk prev Hact eq_refl Hlk Hlast) as Hf.
  cbn zeta in Hf. cbn [multiplicity initParticle] in Hf.
  rewrite Hx, Hx' in Hf. rewrite keep_on_zero_draw in Hf by lra.
  cbn [fst snd] in Hf.
  match type of Hf with
  | _ = inr (rebuffer ?t ?q ?c ?w ?sc) =>
      destruct (rebuffer_children t q c w sc) as (p' & Hb & _);
      [apply ltb_Fin; lra|];
      pose proof (rebuffer_fixed_fields t q c w sc) as (F1 & F2 & F3 & _);
      pose proof (rebuffer_obsWeights t q c w sc) as F4;
      set (this' := rebuffer t q c w sc) in *
  end.
  cbn in Hb, F1, F2, F3, F4.
  exists this', p'. split; [exact Hf|]. split; [exact Hb|].
  unfold dispatch, factor. rewrite Hf.
  assert (Hlen' : length (buffer this') = (len + 1)%nat).
  { rewrite Hb, length_app, Hlen. reflexivity. }
  rewrite control_fresh by now rewrite Hlen'.
  eexists. split; [rewrite F2, F3, Hstore, Hexit; reflexivity|].
  split; [reflexivity|].
  unfold fresh_at. cbn. rewrite F1, F2, F3, F4, Hlen'.
  repeat split; try assumption.
  exists (lk ++ [Det (Fin x') one]), (Det (Fin x') one), x'.
  rewrite lookup_insert_eq, length_app, last_snoc, Hn.
  repeat split. lra.
Qed.

Lemma run_first : run start_1 [first_factor] = Resume second_started 0%nat tt.
Proof.
  unfold run. cbn [fold_left]. unfold after. rewrite start_1_runs.
  cbn [object_of]. apply first_factor_runs.
Qed.

(** After the second particle: one record in a buffer of size one. *)
Lemma run_second :
  exists this,
    run start_1 [first_factor; second_factor] = Resume this 0%nat tt /\
    fresh_at this 1 2 (-1).
Proof.
  destruct (later_factor_runs second_started 0 1 0 (-1) (1 / 2))
    as (_ & _ & _ & _ & this & Hrun & _ & Hfresh).
  - apply second_started_fresh.
  - lra.
  - cbn. lra.
  - exists this. split.
    + change [first_factor; second_factor]
        with ([first_factor] ++ [second_factor]).
      rewrite run_snoc, run_first. exact Hrun.
    + replace (-1) with (0 - 1) by lra. exact Hfresh.
Qed.

(** The third particle arrives while the buffer is full, is kept with one
    child, and makes the buffer two records long. *)
Lemma run_third :
  exists this2 this3' this3,
    run start_1 [first_factor; second_factor] = Resume this2 0%nat tt /\
    fresh_at this2 1 2 (-1) /\
    factor_update this2 tt 1%nat (Fin (-2)) (Fin 0) = inr this3' /\
    length (buffer this3') = 2%nat /\
    run start_1 [first_factor; second_factor; third_factor] =
      Resume this3 0%nat tt /\
    fresh_at this3 2 3 (-2).
Proof.
  destruct run_second as (this2 & Hrun2 & Hfresh2).
  destruct (later_factor_runs this2 1 2 (-1) (-2) (2 / 3) Hfresh2)
    as (this3' & p' & Hf & Hb & this3 & Hrun & _ & Hfresh3).
  - lra.
  - cbn. lra.
  - exists this2, this3', this3.
    split; [exact Hrun2|]. split; [exact Hfresh2|]. split; [exact Hf|].
    split; [|split].
    + rewrite Hb, length_app. destruct Hfresh2 as [-> _]. reflexivity.
    + change [first_factor; second_factor; third_factor]
        with ([first_factor; second_factor] ++ [third_factor]).
      rewrite run_snoc, Hrun2. exact Hrun.
    + replace (-2) with (-1 - 1) by lra. exact Hfresh3.
Qed.

(** An arrival above the reference weight, while the children so far are
    within [minK]: the ceiling of the ratio. *)
Lemma outperform_children (bufSize : num) (lk : list det) (x W : R)
    (random : num) :
  x < W ->
  leb (totalChildren lk) (min bufSize (of_nat (length lk))) = true ->
  numChildrenAndWeight bufSize lk (Fin x) (Fin W) random =
    (ceil (exp (Fin (W + - x))),
     sub (Fin W) (log (ceil (exp (Fin (W + - x)))))).
Proof.
  intros HxW Hle. unfold numChildrenAndWeight. rewrite Hle.
  cbn [sub neg add]. unfold zero. cbn [ltb].
  destruct (Rlt_dec (W + - x) 0); [lra|]. reflexivity.
Qed.

(** The second particle of [start_1] arrives with score 1: it is put into
    the buffer with two child credits or more. *)
Lemma outperformer_update :
  exists (this' : Obj) p',
    factor_update second_started tt 1%nat (Fin 1) (Fin 0) = inr this' /\
    buffer this' = [p'] /\
    gtb (numChildrenToSpawn p') one = true.
Proof.
  destruct (next_wbar_below [Det (Fin (0 + 0)) one] (0 + 0) (0 + 1))
    as (x & Hx & Hbound); [discriminate|lra|].
  pose proof (factor_later_arrival second_started _ tt 1%nat (Fin 1) (Fin 0)
                (0 + 1) [Det (Fin (0 + 0)) one] (Det (Fin (0 + 0)) one)
                eq_refl eq_refl (lookup_insert_eq _ _ _) eq_refl) as Hf.
  cbn zeta in Hf. cbn [multiplicity initParticle wbar] in Hf.
  rewrite Hx in Hf. rewrite outperform_children in Hf; [|exact Hbound|].
  2:{ change (of_nat (length [Det (Fin (0 + 0)) one])) with (Fin 1).
      unfold totalChildren. cbn. rdec; reflexivity. }
  cbn [fst snd] in Hf.
  assert (Hc : gtb (ceil (exp (Fin (0 + 1 + - x)))) one = true)
    by (apply ceil_exp_above_one; lra).
  match type of Hf with
  | _ = inr (rebuffer ?t ?q ?c ?w ?sc) =>
      destruct (rebuffer_children t q c w sc) as (p' & Hb & _ & _ & _ & Hn & _)
  end.
  { apply ceil_exp_pos. apply leb_Fin. lra. }
  destruct Hn as [Hn _]; [cbn; rdec; reflexivity|].
  eexists _, p'. split; [exact Hf|]. split; [exact Hb|].
  rewrite Hn. exact Hc.
Qed.

(** The run of [start_1] with [first_factor], then [outperforming_factor]:
    a copy of the record of the second particle is active, and the last
    score on its path is 1. *)
Lemma outperformer_copied :
  exists (this : Obj) g q,
    scored this g /\ activeParticle this = Some q /\
    lastScore_active g = Some (Fin 1).
Proof.
  destruct outperformer_update as (this' & p' & Hf & Hb & Hc).
  assert (Hd : dispatch second_started outperforming_factor =
               launch
                 (set_buffer
                    (<[0%nat := set_numChildrenToSpawn
                                  (sub (numChildrenToSpawn p') one) p']>
                       (buffer this'))
                    (counted this' None))
                 (copyOneParticle p')).
  { unfold outperforming_factor, dispatch, factor. rewrite Hf.
    apply (control_clone this' None 0 0 p'); [|now rewrite Hb|exact Hc].
    rewrite Hb. cbn. lra. }
  assert (S0 : scored started_1
                 (LastScores (replicate (length (buffer started_1)) None) None)).
  { apply (scored_aSMC tt 0%nat (Fin 10) (Fin 1) (Fin 0)).
    fold start_1. now rewrite start_1_runs. }
  assert (H1 : object_of (dispatch started_1 first_factor) = Some second_started)
    by now rewrite first_factor_runs.
  pose proof (scored_call _ _ _ _ S0 H1) as S1.
  pose proof (scored_call _ _ outperforming_factor _ S1
                ltac:(rewrite Hd; reflexivity)) as S2.
  eexists _, _, _. split; [exact S2|]. split; [reflexivity|].
  cbn [dispatch_lastScores outperforming_factor first_factor].
  unfold factor_lastScores at 1. rewrite Hf.
  unfold factor_lastScores. rewrite first_factor_update.
  unfold control_lastScores at 1. rewrite Hb. cbn [length].
  rewrite (draw_index 1 0 0) by (cbn; lra).
  rewrite eqb_of_nat, bool_decide_eq_false_2 by lia.
  rewrite to_index_of_nat. cbn [lastScore_buffer lastScore_active].
  rewrite control_lastScores_buffer. reflexivity.
Qed.

Lemma start_5_runs : start_5 = Resume started_5 0%nat tt.
Proof.
  unfold start_5. rewrite (aSMC_seeds (Value:=unit) _ _ _ _ _ 3).
  - rewrite control_fresh by (cbn; lra). reflexivity.
  - apply (seed_count 5 3). lra.
Qed.

Lemma start_0_runs : start_0 = Resume started_0 0%nat tt.
Proof.
  unfold start_0. rewrite (aSMC_unseeded (Value:=unit)); [reflexivity| |lra].
  apply leb_Fin. lra.
Qed.

End ScenarioFacts.

(* ===================================================================== *)
(** ** The scheduler, the buffer and the configuration *)
(* ===================================================================== *)

Import Scenario ScenarioFacts.

(** C1: a first arrival at an observation.  With bufferSize 1 the first
    particle reaches [factor(0)] as the first arrival at observation 0: the
    entry {wbar = 0, mnk = 1} is recorded and the particle gets one child
    credit and keeps its weight, but line 155 is not on this path: the buffer
    is still empty when [control] runs, which starts a fresh particle. *)
Theorem first_arrival_dropped :
  start_1 = Resume started_1 0%nat tt /\
  factor_update started_1 tt 1%nat (Fin 0) (Fin 0) = inr first_arrived /\
  obsWeights first_arrived !! 0%nat = Some [Det (Fin (0 + 0)) one] /\
  (exists p, activeParticle first_arrived = Some p /\
             numChildrenToSpawn p = one /\ weight p = Fin (0 + 0)) /\
  buffer first_arrived = [] /\
  dispatch started_1 first_factor = Resume second_started 0%nat tt /\
  buffer second_started = [] /\
  activeParticle second_started = Some (initParticle tt 0%nat).
Proof.
  split; [apply start_1_runs|]. split; [apply first_factor_update|].
  split; [apply lookup_insert_eq|]. split; [eexists; repeat split|].
  split; [reflexivity|]. split; [apply first_factor_runs|].
  split; reflexivity.
Qed.

(** C2, as stated, fails: with bufferSize 1, the third particle of this run
    reaches [factor] while the buffer holds one record, is awarded one
    child, and is appended: the buffer then holds two records, in the object
    the next scheduler step works on as well. *)
Lemma buffer_exceeds_bufferSize :
  exists this2 this3' this3 : Obj,
    run start_1 [first_factor; second_factor] = Resume this2 0%nat tt /\
    bufferSize this2 = Fin 1 /\ length (buffer this2) = 1%nat /\
    factor_update this2 tt 1%nat (Fin (-2)) (Fin 0) = inr this3' /\
    length (buffer this3') = 2%nat /\
    run start_1 [first_factor; second_factor; third_factor] =
      Resume this3 0%nat tt /\
    reachable this3 /\
    bufferSize this3 = Fin 1 /\ length (buffer this3) = 2%nat /\
    leb (of_nat (length (buffer this3))) (bufferSize this3) = false.
Proof.
  destruct run_third as (this2 & this3' & this3 & H2 & F2 & Hf & Hl & H3 & F3).
  exists this2, this3', this3.
  destruct F2 as (L2 & S2 & _). destruct F3 as (L3 & S3 & _).
  repeat split; try assumption.
  - apply (reachable_run tt 0%nat (Fin 10) (Fin 1) (Fin 0)
             [first_factor; second_factor; third_factor]).
    fold start_1. now rewrite H3.
  - rewrite L3, S3. cbn. rdec; reflexivity.
Qed.

Lemma factor_full_buffer_witness :
  exists (this this' : Obj) p',
    factor_update this tt 1%nat (Fin (-2)) (Fin 0) = inr this' /\
    buffer this' = buffer this ++ [p'] /\
    numChildrenToSpawn p' = one /\
    length (buffer this') = S (length (buffer this)).
Proof.
  destruct run_second as (this & _ & F).
  destruct F as (Hlen & Hsize & _ & _ & Hact & lk & prev & x & Hlk & Hn &
                 Hlast & Hx & Hv).
  assert (Hne : lk <> []) by (intros ->; discriminate).
  destruct (next_wbar_bound lk x (0 + -2) Hne) as (x' & Hx' & Hbound).
  destruct (factor_full_buffer this (initParticle tt 0%nat) tt 1%nat
              (Fin (-2)) (Fin 0) (0 + -2) lk prev Hact eq_refl Hlk Hlast)
    as (this' & p' & Hf & Hb & _ & Hc & Hl).
  - cbn [multiplicity initParticle]. rewrite Hx, Hx'.
    rewrite keep_on_zero_draw by lra.
    apply leb_Fin. lra.
  - rewrite Hsize, Hlen. apply leb_Fin. cbn. lra.
  - exists this, this', p'. auto.
Defined.

Lemma factor_reference_weight_witness :
  exists (this' : Obj) d,
    factor_update second_started tt 1%nat (Fin (-1)) (Fin 0) = inr this' /\
    obsWeights this' !! 0%nat = Some ([Det (Fin (0 + 0)) one] ++ [d]) /\
    wbar d =
      logsumexp
        [ add (log (div (of_nat 1) (add (of_nat 1) one))) (Fin (0 + 0));
          add (log (div one (add (of_nat 1) one))) (Fin (0 + -1)) ].
Proof.
  exact (factor_reference_weight second_started (initParticle tt 0%nat) tt
           1%nat (Fin (-1)) (Fin 0) (0 + -1) 2
           [Det (Fin (0 + 0)) one] (Det (Fin (0 + 0)) one)
           eq_refl eq_refl (le_n 2) (lookup_insert_eq _ _ _) eq_refl eq_refl).
Defined.

Lemma factor_resampling_witness :
  let lk := [Det (Fin (0 + 0)) one] in
  (exists (this' : Obj) p',
     factor_update second_started tt 1%nat (Fin (-1)) (Fin 0) = inr this' /\
     obsWeights this' !! 0%nat =
       Some (lk ++ [Det (next_wbar lk (Fin (0 + 0)) one (Fin (0 + -1))) one]) /\
     buffer this' = [] ++ [p'] /\
     numChildrenToSpawn p' = one /\ multiplicity p' = one) /\
  (exists this' : Obj,
     factor_update second_started tt 1%nat (Fin (-10)) (Fin (1 / 2)) =
       inr this' /\
     obsWeights this' !! 0%nat =
       Some (lk ++ [Det (next_wbar lk (Fin (0 + 0)) one (Fin (0 + -10))) zero]) /\
     buffer this' = []) /\
  (exists (this' : Obj) p',
     let wbar' := next_wbar lk (Fin (0 + 0)) one (Fin (0 + 1)) in
     let c := ceil (exp (sub (Fin (0 + 1)) wbar')) in
     factor_update second_started tt 1%nat (Fin 1) (Fin 0) = inr this' /\
     obsWeights this' !! 0%nat = Some (lk ++ [Det wbar' c]) /\
     buffer this' = [] ++ [p'] /\
     weight p' = sub (Fin (0 + 1)) (log c) /\
     numChildrenToSpawn p' = c /\ multiplicity p' = one /\
     gtb c one = true).
Proof.
  intros lk. split; [|split].
  - destruct (next_wbar_bound lk (0 + 0) (0 + -1))
      as (x & Hx & Hbound); [discriminate|].
    destruct (factor_resampling second_started (initParticle tt 0%nat) tt
                1%nat (Fin (-1)) (Fin 0) (0 + -1) 2 lk (Det (Fin (0 + 0)) one)
                eq_refl eq_refl (le_n 2) (lookup_insert_eq _ _ _) eq_refl
                eq_refl)
      as (this' & Hf & Hkeep & _ & _).
    change (logsumexp _)
      with (next_wbar lk (Fin (0 + 0)) one (Fin (0 + -1))) in Hkeep.
    destruct Hkeep as (Hobs & p' & Hb & _ & _ & Hn & Hm).
    + rewrite Hx. apply ltb_Fin. lra.
    + rewrite Hx. cbn. rdec; reflexivity.
    + exists this', p'. auto.
  - destruct (next_wbar_bound lk (0 + 0) (0 + -10))
      as (x & Hx & Hbound); [discriminate|].
    destruct (factor_resampling second_started (initParticle tt 0%nat) tt
                1%nat (Fin (-10)) (Fin (1 / 2)) (0 + -10) 2 lk
                (Det (Fin (0 + 0)) one)
                eq_refl eq_refl (le_n 2) (lookup_insert_eq _ _ _) eq_refl
                eq_refl)
      as (this' & Hf & _ & Hdrop & _).
    change (logsumexp _)
      with (next_wbar lk (Fin (0 + 0)) one (Fin (0 + -10))) in Hdrop.
    destruct Hdrop as (Hobs & Hb).
    + rewrite Hx. apply ltb_Fin. lra.
    + rewrite Hx. assert (-1 < ln (1 / 2)) by (apply ln_above_minus_1; lra).
      cbn [log sub neg add]. rdec. cbn [ltb]. rdec; reflexivity.
    + exists this'. auto.
  - destruct (next_wbar_below lk (0 + 0) (0 + 1))
      as (x & Hx & Hbound); [discriminate|lra|].
    destruct (factor_resampling second_started (initParticle tt 0%nat) tt
                1%nat (Fin 1) (Fin 0) (0 + 1) 2 lk (Det (Fin (0 + 0)) one)
                eq_refl eq_refl (le_n 2) (lookup_insert_eq _ _ _) eq_refl
                eq_refl)
      as (this' & Hf & _ & _ & Hout).
    change (logsumexp _)
      with (next_wbar lk (Fin (0 + 0)) one (Fin (0 + 1))) in Hout.
    assert (Hle : leb (fold_left (fun total d => add total (mnk d)) lk zero)
                    (min (bufferSize second_started) (of_nat (2 - 1))) = true).
    { change (of_nat (2 - 1)) with (Fin 1). cbn. rdec; reflexivity. }
    rewrite Hle in Hout.
    destruct Hout as (Hobs & p' & Hb & _ & Hw & Hroom & _).
    + rewrite Hx. apply leb_Fin. lra.
    + destruct Hroom as [Hn Hm]; [cbn; rdec; reflexivity|].
      exists this', p'. cbn zeta.
      repeat (split; [assumption|]).
      rewrite Hx. apply ceil_exp_above_one. lra.
Defined.

(** C7, counterexample: the first particle of [start_1] reaches [factor(1)],
    a first arrival.  [factor] keeps it alive (one child credit) with weight
    0 + 1 and finalWeight 0 + 1, while
    log(multiplicity) + weight + score = log 1 + (0 + 1) + 1. *)
Lemma first_arrival_finalWeight :
  start_1 = Resume started_1 0%nat tt /\
  exists (this' : Obj) p',
    factor_update started_1 tt 1%nat (Fin 1) (Fin 0) = inr this' /\
    activeParticle this' = Some p' /\
    numChildrenToSpawn p' = one /\
    multiplicity p' = one /\
    weight p' = Fin (0 + 1) /\
    finalWeight p' = Fin (0 + 1) /\
    finalWeight p' <> add (add (log (multiplicity p')) (weight p')) (Fin 1).
Proof.
  split; [exact start_1_runs|].
  unfold factor_update, started_1. cbn. rewrite lookup_empty.
  eexists _, _. split; [reflexivity|]. cbn.
  repeat (split; [reflexivity|]).
  cbn [finalWeight multiplicity weight set_finalWeight set_numChildrenToSpawn
       arrive initParticle].
  unfold one. cbn [log]. rdec. cbn [add].
  intros [= H]. rewrite ln_1 in H. lra.
Qed.

Lemma finalWeight_of_survivor_witness :
  (exists (this' : Obj) p',
     factor_update started_1 tt 1%nat (Fin 1) (Fin 0) = inr this' /\
     activeParticle this' = Some p' /\
     numChildrenToSpawn p' = one /\
     weight p' = Fin (0 + 1) /\ finalWeight p' = weight p') /\
  (exists (this' : Obj) p',
     factor_update second_started tt 1%nat (Fin 1) (Fin 0) = inr this' /\
     activeParticle this' = Some p' /\
     finalWeight p' = add (add (log (multiplicity p')) (weight p')) (Fin 1)) /\
  (exists (this : Obj) g q this' q',
     scored this g /\
     activeParticle this = Some q /\
     lastScore_active g = Some (Fin 1) /\
     finalWeight q = add (add (log (multiplicity q)) (weight q)) (Fin 1) /\
     exit_update this tt tt = inr this' /\
     exitedParticles this' = exitedParticles this ++ [q'] /\
     completed q' = true /\
     multiplicity q' = multiplicity q /\
     weight q' = add (add (log (multiplicity q)) (weight q)) (Fin 1)).
Proof.
  destruct (finalWeight_of_survivor (Cont:=nat) (Store:=unit) (Value:=unit))
    as (HA & HB & HC).
  split; [|split].
  - exact (HA started_1 (initParticle tt 0%nat) tt 1%nat (Fin 1) (Fin 0)
             (0 + 1) eq_refl eq_refl (lookup_empty _)).
  - destruct outperformer_update as (this' & p' & Hf & Hb & _).
    destruct (HB second_started (initParticle tt 0%nat) tt 1%nat (Fin 1)
                (Fin 0) this' p' eq_refl Hf Hb) as [Ha HF].
    exists this', p'. auto.
  - destruct outperformer_copied as (this & g & q & Hrun & Hq & Hg).
    destruct (HC this g q (Fin 1) Hrun Hq Hg) as [HF Hexit].
    destruct (Hexit tt tt) as (this' & q' & He & Hx & Hcompl & Hm & Hw).
    exists this, g, q, this', q'. auto 10.
Defined.

Lemma factor_dead_weight_witness :
  exists this' : Obj,
    factor_update started_1 tt 1%nat NInf (Fin 0) = inr this' /\
    (forall n, obsWeights this' !! n = obsWeights started_1 !! n) /\
    buffer this' = buffer started_1 /\
    factor started_1 tt 1%nat NInf (Fin 0) (Fin 0) =
      control this' None (Fin 0).
Proof.
  exact (factor_dead_weight started_1 (initParticle tt 0%nat) tt 1%nat NInf
           (Fin 0) (Fin 0) eq_refl eq_refl).
Defined.

(** C5: the removal of a buffered particle.  With bufferSize 2 one
    particle is seeded, without child credit; the draw 1/4 selects it
    (i = 0, not the slot past the buffer), line 81 sends it to the removal of
    line 86, and the call of [util.deleteIndex] throws. *)
Theorem control_remove_throws :
  start_2 = control seeded_2 (Some (Fin 10)) (Fin (1 / 4)) /\
  floor (mul (of_nat (length (buffer seeded_2) + 1)) (Fin (1 / 4))) = of_nat 0 /\
  buffer seeded_2 !! 0%nat = Some (initParticle tt 0%nat) /\
  gtb (numChildrenToSpawn (initParticle (Value:=unit) tt 0%nat)) one = false /\
  start_2 = Throw (TypeError "util.deleteIndex is not a function").
Proof.
  assert (Hseed : start_2 = control seeded_2 (Some (Fin 10)) (Fin (1 / 4))).
  { unfold start_2. apply (aSMC_seeds (Value:=unit) _ _ _ _ _ 1).
    apply (seed_count 2 1). lra. }
  assert (Hdraw : INR 0 <= INR (length (buffer seeded_2) + 1) * (1 / 4)
                    < INR 0 + 1) by (cbn; lra).
  split; [exact Hseed|]. split; [exact (draw_index _ _ _ Hdraw)|].
  split; [reflexivity|]. split; [apply gtb_zero_one|].
  rewrite Hseed.
  apply (control_remove _ _ _ 0 (initParticle tt 0%nat) Hdraw);
    [reflexivity|apply gtb_zero_one].
Qed.

(** C6, as stated, fails on the particles of the initial seeding: with
    bufferSize 5 the buffer of the first scheduler step holds three
    particles without child credit. *)
Lemma seeded_without_credit :
  start_5 = Resume started_5 0%nat tt /\
  reachable started_5 /\
  initParticle tt 0%nat ∈ buffer started_5 /\
  leb one (numChildrenToSpawn (initParticle (Value:=unit) tt 0%nat)) = false.
Proof.
  split; [apply start_5_runs|]. split; [|split].
  - apply (reachable_aSMC tt 0%nat (Fin 10) (Fin 5) (Fin (3 / 4))).
    fold start_5. now rewrite start_5_runs.
  - cbn. constructor.
  - cbn. rdec; reflexivity.
Qed.

(** C6 (amended): every particle in the buffer at any point of a run has
    multiplicity >= 1, and numChildrenToSpawn >= 1 unless it is still as
    [initParticle] built it (a particle of the initial seeding), in which case
    its numChildrenToSpawn is 0. *)
Theorem buffer_counts {Cont Store Value : Type}
    (this : coroutine Cont Store Value) (p : particle Cont Store Value) :
  reachable this ->
  p ∈ buffer this ->
  leb one (multiplicity p) = true /\
  (leb one (numChildrenToSpawn p) = true \/
   p = initParticle (this_store this) (exitK this) /\
   numChildrenToSpawn p = zero).
Proof.
  intros Hr Hp. destruct (counts_ok_reachable this Hr) as [Hbuf _].
  destruct (proj1 (Forall_forall _ _) Hbuf p Hp) as [Hm Hn].
  split; [now apply counting_ge_1|].
  destruct Hn as [Hn | ->]; [left; now apply counting_ge_1|right; now split].
Qed.

Lemma buffer_counts_witness :
  leb one (multiplicity (initParticle (Value:=unit) tt 0%nat)) = true /\
  (leb one (numChildrenToSpawn (initParticle (Value:=unit) tt 0%nat)) = true \/
   initParticle (Value:=unit) tt 0%nat =
     initParticle (this_store started_5) (exitK started_5) /\
   numChildrenToSpawn (initParticle (Value:=unit) tt 0%nat) = zero).
Proof.
  apply (buffer_counts started_5 (initParticle tt 0%nat)).
  - apply (reachable_aSMC tt 0%nat (Fin 10) (Fin 5) (Fin (3 / 4))).
    fold start_5. now rewrite start_5_runs.
  - cbn. constructor.
Defined.

(** C9, as stated, fails: [aSMC] with numParticles 0 and bufferSize 0 raises
    nothing; it takes its first scheduler step and resumes a fresh
    particle. *)
Lemma non_positive_config_runs :
  start_0 = Resume started_0 0%nat tt /\ forall e, start_0 <> Throw e.
Proof.
  split; [apply start_0_runs|]. intros e. now rewrite start_0_runs.
Qed.

(** C9 (amended): [aSMC] validates neither numParticles nor bufferSize.  For
    every bufferSize <= 1, so for every non-positive one, and every
    numParticles, no error is raised: no particle is seeded, numParticles is
    stored as given, and the first scheduler step resumes a fresh particle. *)
Theorem aSMC_validates_nothing {Cont Store Value : Type}
    (s : Store) (wpplFn : Cont) (numP bufSize : num) (u : R) :
  leb bufSize one = true ->
  0 <= u < 1 ->
  exists this,
    aSMC (Value:=Value) s wpplFn numP bufSize (Fin u) = Resume this wpplFn s /\
    buffer this = [] /\
    bufferSize this = bufSize /\
    numParticles this = add zero numP /\
    activeParticle this = Some (initParticle s wpplFn).
Proof.
  intros Hb Hu. rewrite (aSMC_unseeded s wpplFn numP bufSize u Hb Hu).
  eexists. split; [reflexivity|]. repeat split.
Qed.

Lemma aSMC_validates_nothing_witness :
  exists this : Obj,
    aSMC tt 0%nat (Fin (-3)) NInf (Fin 0) = Resume this 0%nat tt /\
    buffer this = [] /\
    bufferSize this = NInf /\
    numParticles this = add zero (Fin (-3)) /\
    activeParticle this = Some (initParticle tt 0%nat).
Proof.
  apply (aSMC_validates_nothing (Value:=unit) tt 0%nat (Fin (-3)) NInf 0).
  - reflexivity.
  - lra.
Defined.

(** C10, as stated, fails at [Infinity]: [logsumexp([Infinity])] is NaN. *)
Lemma logsumexp_PInf : logsumexp [PInf] = NaN /\ logsumexp [PInf] <> PInf.
Proof. split; [reflexivity|discriminate]. Qed.

(** C10 (amended): for a non-empty list whose entries are all [-Infinity],
    [logsumexp] returns [-Infinity] and not NaN; for a one-element list [x]
    with [x] other than [Infinity] it returns [x]. *)
Theorem logsumexp_laws (a : list num) (x : num) :
  a <> [] ->
  Forall (fun y => y = NInf) a ->
  x <> PInf ->
  logsumexp a = NInf /\ logsumexp a <> NaN /\ logsumexp [x] = x.
Proof.
  intros _ Ha Hx. rewrite (logsumexp_NInf a Ha).
  split; [reflexivity|]. split; [discriminate|].
  now apply logsumexp_singleton.
Qed.

Lemma logsumexp_laws_witness :
  logsumexp [NInf; NInf; NInf] = NInf /\
  logsumexp [NInf; NInf; NInf] <> NaN /\
  logsumexp [Fin (-2)] = Fin (-2).
Proof.
  apply (logsumexp_laws [NInf; NInf; NInf] (Fin (-2))).
  - discriminate.
  - repeat constructor.
  - discriminate.
Defined.

(* ===================================================================== *)
(** ** util.js: searching a list *)
(* ===================================================================== *)

Module UtilSearch.
Import Util.

Section Search.

Context {A : Type}.
Implicit Types (l rest : list A) (p : option A -> bool).

(** The upward loop answers -1 when no element passes, and otherwise the
    index of the first one that does. *)
Lemma scan_up_spec p rest (i : nat) :
  (scan_up p rest i = (-1)%Z /\
   forall k x, rest !! k = Some x -> p (Some x) = false) \/
  (exists k x,
     scan_up p rest i = Z.of_nat (i + k) /\
     rest !! k = Some x /\ p (Some x) = true /\
     forall j y, (j < k)%nat -> rest !! j = Some y -> p (Some y) = false).
Proof.
  revert i. induction rest as [|x rest IH]; intros i; cbn [scan_up].
  - left. split; [reflexivity|]. intros k y H. discriminate.
  - destruct (p (Some x)) eqn:Hx.
    + right. exists 0%nat, x. rewrite Nat.add_0_r.
      repeat split; try assumption. intros j y Hj. lia.
    + destruct (IH (S i)) as [[Hr Hall] | (k & y & Hr & Hk & Hy & Hbefore)].
      * left. split; [exact Hr|]. intros [|k] y Hk; cbn in Hk.
        -- now inversion Hk; subst.
        -- eauto.
      * right. exists (S k), y. rewrite Hr.
        split; [f_equal; lia|]. split; [exact Hk|]. split; [exact Hy|].
        intros [|j] z Hj Hz; cbn in Hz.
        -- now inversion Hz; subst.
        -- apply (Hbefore j z); [lia|exact Hz].
Qed.

(** X1: when [indexOfPred] answers an index, that index is at or after
    [start], its element passes [p], and no element from [start] up to it
    does. *)
Theorem indexOfPred_found l p (start : option nat) (i : nat) :
  indexOfPred l p start = Z.of_nat i ->
  (default 0 start <= i < length l)%nat /\
  exists x, l !! i = Some x /\ p (Some x) = true /\
    forall j y, (default 0 start <= j < i)%nat ->
                l !! j = Some y -> p (Some y) = false.
Proof.
  unfold indexOfPred. set (s := default 0%nat start). intros H.
  destruct (scan_up_spec p (drop s l) s)
    as [[Hr _] | (k & x & Hr & Hk & Hx & Hbefore)].
  - rewrite Hr in H. lia.
  - rewrite Hr in H. apply Nat2Z.inj in H. subst i.
    rewrite lookup_drop in Hk. split.
    + apply lookup_lt_Some in Hk. lia.
    + exists x. repeat split; try assumption.
      intros j y Hj Hy. apply (Hbefore (j - s)%nat y); [lia|].
      rewrite lookup_drop. now replace (s + (j - s))%nat with j by lia.
Qed.

(** X2: [indexOfPred] answers -1 exactly when no element at or after [start]
    passes [p]; in particular for a [start] at or past the end. *)
Theorem indexOfPred_none l p (start : option nat) :
  indexOfPred l p start = (-1)%Z <->
  forall j y, (default 0 start <= j)%nat -> l !! j = Some y ->
              p (Some y) = false.
Proof.
  unfold indexOfPred. set (s := default 0%nat start).
  destruct (scan_up_spec p (drop s l) s)
    as [[Hr Hall] | (k & x & Hr & Hk & Hx & _)]; rewrite Hr; split.
  - intros _ j y Hj Hy. apply (Hall (j - s)%nat y).
    rewrite lookup_drop. now replace (s + (j - s))%nat with j by lia.
  - reflexivity.
  - lia.
  - intros Hall. rewrite lookup_drop in Hk.
    rewrite (Hall (s + k)%nat x) in Hx; [discriminate|lia|exact Hk].
Qed.

(** The downward loop answers -1 when no index from [i] down to 0 passes, and
    otherwise the largest one that does. *)
Lemma scan_down_spec p l (i : nat) :
  (scan_down p l i = (-1)%Z /\
   forall j, (j <= i)%nat -> p (l !! j) = false) \/
  (exists k, (k <= i)%nat /\
     scan_down p l i = Z.of_nat k /\ p (l !! k) = true /\
     forall j, (k < j <= i)%nat -> p (l !! j) = false).
Proof.
  induction i as [|i IH]; cbn [scan_down].
  - destruct (p (l !! 0%nat)) eqn:H0.
    + right. exists 0%nat. repeat split; try assumption; lia.
    + left. split; [reflexivity|]. intros j Hj.
      now replace j with 0%nat by lia.
  - destruct (p (l !! S i)) eqn:HS.
    + right. exists (S i). repeat split; try assumption; lia.
    + destruct IH as [[Hr Hall] | (k & Hk & Hr & Hp & Hafter)].
      * left. split; [exact Hr|]. intros j Hj.
        destruct (decide (j = S i)) as [->|]; [exact HS|apply Hall; lia].
      * right. exists k. repeat split; try assumption; try lia.
        intros j Hj.
        destruct (decide (j = S i)) as [->|]; [exact HS|apply Hafter; lia].
Qed.

(** X3: when [lastIndexOfPred] answers an index, the value at that index
    passes [p], the index is at most the index the loop starts from, and no
    index between them passes. *)
Theorem lastIndexOfPred_found l p (start : option nat) (i : nat) :
  lastIndexOfPred l p start = Z.of_nat i ->
  (i <= last_start l start)%nat /\
  p (l !! i) = true /\
  forall j, (i < j <= last_start l start)%nat -> p (l !! j) = false.
Proof.
  assert (Hloop : forall n, scan_down p l n = Z.of_nat i ->
            (i <= n)%nat /\ p (l !! i) = true /\
            forall j, (i < j <= n)%nat -> p (l !! j) = false).
  { intros n H.
    destruct (scan_down_spec p l n) as [[Hr _] | (k & Hk & Hr & Hp & Hafter)];
      rewrite Hr in H; [lia|].
    apply Nat2Z.inj in H. subst k. auto. }
  unfold lastIndexOfPred, last_start.
  destruct start as [[|n]|]; try apply Hloop;
    (destruct (length l) as [|m]; [lia|]);
    replace (S m - 1)%nat with m by lia; apply Hloop.
Qed.

(** X4: a [start] of 0 counts as no [start]: asked to search from index 0
    downwards, [lastIndexOfPred] searches the whole list, and its answer is
    at least the index of any element that passes [p]. *)
Theorem lastIndexOfPred_start_0 l p (k : nat) (x : A) :
  l !! k = Some x ->
  p (Some x) = true ->
  (Z.of_nat k <= lastIndexOfPred l p (Some 0%nat))%Z /\
  lastIndexOfPred l p (Some 0%nat) = lastIndexOfPred l p None.
Proof.
  intros Hk Hx. split; [|reflexivity].
  unfold lastIndexOfPred. pose proof (lookup_lt_Some _ _ _ Hk) as Hlen.
  destruct (length l) as [|m]; [lia|].
  destruct (scan_down_spec p l m) as [[_ Hall] | (i & Hi & -> & Hp & Hafter)].
  - rewrite <- Hk in Hx. rewrite (Hall k) in Hx; [discriminate|lia].
  - destruct (decide (k <= i)%nat); [lia|].
    rewrite <- Hk in Hx. rewrite (Hafter k) in Hx; [discriminate|lia].
Qed.

(** X5: without [start], [lastIndexOfPred] on [l] and [indexOfPred] on the
    reversed list find the same element: both answer -1, or the two indices
    add up to [l.length - 1]. *)
Theorem lastIndexOfPred_reverse l p :
  lastIndexOfPred l p None =
    if decide (indexOfPred (reverse l) p None = (-1)%Z) then (-1)%Z
    else (Z.of_nat (length l) - 1 - indexOfPred (reverse l) p None)%Z.
Proof.
  unfold lastIndexOfPred, indexOfPred. cbn [default]. rewrite drop_0.
  destruct (length l) as [|m] eqn:Hlen.
  { apply length_zero_iff_nil in Hlen. subst l. reflexivity. }
  assert (Hrev : forall k, (k <= m)%nat -> reverse l !! k = l !! (m - k)%nat).
  { intros k Hk. rewrite reverse_lookup by lia. f_equal. lia. }
  destruct (scan_down_spec p l m) as [[-> Hall] | (i & Hi & -> & Hp & Hafter)];
    destruct (scan_up_spec p (reverse l) 0)
      as [[-> Hnone] | (k & y & -> & Hk & Hy & Hbefore)].
  - reflexivity.
  - pose proof (lookup_lt_Some _ _ _ Hk) as Hkm. rewrite length_reverse in Hkm.
    rewrite Hrev in Hk by lia. rewrite <- Hk, Hall in Hy by lia. discriminate.
  - destruct (l !! i) as [x|] eqn:Hx.
    2:{ apply lookup_ge_None in Hx. lia. }
    rewrite (Hnone (m - i)%nat x) in Hp; [discriminate|].
    rewrite Hrev by lia. now replace (m - (m - i))%nat with i by lia.
  - pose proof (lookup_lt_Some _ _ _ Hk) as Hkm. rewrite length_reverse in Hkm.
    rewrite Hrev in Hk by lia.
    destruct (l !! i) as [x|] eqn:Hx.
    2:{ apply lookup_ge_None in Hx. lia. }
    assert (k = (m - i)%nat) as ->.
    { destruct (lt_eq_lt_dec k (m - i)) as [[Hlt|Heq]|Hgt]; [|exact Heq|].
      - rewrite <- Hk, (Hafter (m - k)%nat) in Hy by lia. discriminate.
      - rewrite (Hbefore (m - i)%nat x) in Hp; [discriminate|lia|].
        rewrite Hrev by lia. now replace (m - (m - i))%nat with i by lia. }
    rewrite decide_False by lia. lia.
Qed.

End Search.

Lemma indexOfPred_found_witness :
  (0 <= 1 < 3)%nat /\
  exists x, [3; 4; 5]%nat !! 1%nat = Some x /\ Nat.even (default 0%nat (Some x)) = true /\
    forall j y, (0 <= j < 1)%nat -> [3; 4; 5]%nat !! j = Some y ->
                Nat.even (default 0%nat (Some y)) = false.
Proof.
  exact (indexOfPred_found [3; 4; 5]%nat (fun v => Nat.even (default 0%nat v))
           None 1 eq_refl).
Defined.

Lemma lastIndexOfPred_found_witness :
  (1 <= 5)%nat /\
  Nat.even (default 1%nat ([3; 4; 5]%nat !! 1%nat)) = true /\
  forall j, (1 < j <= 5)%nat ->
            Nat.even (default 1%nat ([3; 4; 5]%nat !! j)) = false.
Proof.
  exact (lastIndexOfPred_found [3; 4; 5]%nat
           (fun v => Nat.even (default 1%nat v)) (Some 5%nat) 1 eq_refl).
Defined.

Lemma lastIndexOfPred_start_0_witness :
  (2 <= lastIndexOfPred [3; 4; 6]%nat (fun v => Nat.even (default 1%nat v))
          (Some 0%nat))%Z /\
  lastIndexOfPred [3; 4; 6]%nat (fun v => Nat.even (default 1%nat v))
    (Some 0%nat) =
  lastIndexOfPred [3; 4; 6]%nat (fun v => Nat.even (default 1%nat v)) None.
Proof.
  exact (lastIndexOfPred_start_0 [3; 4; 6]%nat
           (fun v => Nat.even (default 1%nat v)) 2 6%nat eq_refl eq_refl).
Defined.

End UtilSearch.

(* ===================================================================== *)
(** ** util.js: [cpsForEach] and [gensym] *)
(* ===================================================================== *)

Module UtilLoops.
Import Util.

(** X6: [cpsForEach] with a [func] that updates a state and then calls its
    continuation visits the elements from index [i] on, in order, each once
    with its index, and then calls [nextK] on the state they leave; one unit
    of fuel per element left and one for the end suffice. *)
Theorem cpsForEach_visits {A St Res : Type} (fuel : nat) (bottom : St -> Res)
    (step : option A -> nat -> list A -> St -> St) (nextK : unit -> St -> Res)
    (xs : list A) (start : option nat) (st : St) :
  (default 0 start <= length xs)%nat ->
  (length xs - default 0 start < fuel)%nat ->
  cpsForEach fuel bottom (fun x j ys k st => k tt (step x j ys st)) nextK xs
    start st =
  nextK tt
    (visit step xs (drop (default 0%nat start) xs) (default 0%nat start) st).
Proof.
  unfold cpsForEach. generalize (default 0%nat start) as i. clear start.
  intros i. revert i st. induction fuel as [|fuel IH]; intros i st Hi Hfuel.
  - lia.
  - cbn [cpsForEach_loop]. destruct (decide (i = length xs)) as [->|Hne].
    + now rewrite drop_all.
    + destruct (xs !! i) as [x|] eqn:Hx.
      2:{ apply lookup_ge_None in Hx. lia. }
      rewrite (drop_S _ _ _ Hx). cbn [visit].
      rewrite IH by lia. now rewrite Nat.add_1_r.
Qed.

Lemma cpsForEach_visits_witness :
  cpsForEach 4 (fun _ => [])
    (fun x j (ys : list nat) k st => k tt (st ++ [(j, default 0%nat x)]))
    (fun _ st => st) [7; 8; 9]%nat None [] =
  visit (fun x j _ st => st ++ [(j, default 0%nat x)]) [7; 8; 9]%nat
    (drop 0 [7; 8; 9]%nat) 0 [].
Proof.
  apply (cpsForEach_visits 4 (fun _ => [])
           (fun x j _ st => st ++ [(j, default 0%nat x)]) (fun _ st => st)
           [7; 8; 9]%nat None []).
  - cbn [default length]. lia.
  - cbn [default length]. lia.
Defined.



Lemma gensym_calls_lookup (seq : nat) (prefixes : list string) (i : nat)
    (prefix : string) :
  prefixes !! i = Some prefix ->
  gensym_calls seq prefixes !! i = Some (prefix +:+ pretty (seq + i)%nat).
Proof.
  revert seq i. induction prefixes as [|q prefixes IH]; intros seq i H.
  - discriminate.
  - destruct i as [|i].
    + inversion H; subst. cbn. now rewrite Nat.add_0_r.
    + transitivity (gensym_calls (seq + 1) prefixes !! i); [reflexivity|].
      rewrite (IH (seq + 1)%nat i H). do 3 f_equal. lia.
Qed.

(** X8: two calls of one generator with the same prefix never give the same
    name. *)
Theorem gensym_distinct (seq : nat) (prefixes : list string) (i j : nat)
    (prefix name name' : string) :
  i <> j ->
  prefixes !! i = Some prefix ->
  prefixes !! j = Some prefix ->
  gensym_calls seq prefixes !! i = Some name ->
  gensym_calls seq prefixes !! j = Some name' ->
  name <> name'.
Proof.
  intros Hij Hi Hj Hn Hn'.
  rewrite (gensym_calls_lookup _ _ _ _ Hi) in Hn.
  rewrite (gensym_calls_lookup _ _ _ _ Hj) in Hn'.
  inversion Hn; inversion Hn'; subst. intros Heq.
  apply (inj (String.app prefix)) in Heq.
  apply (inj pretty) in Heq. lia.
Qed.

Lemma gensym_distinct_witness : ("x0" <> "x2")%string.
Proof.
  exact (gensym_distinct makeGensym ["x"; "y"; "x"]%string 0 2 "x" "x0" "x2"
           ltac:(discriminate) eq_refl eq_refl eq_refl eq_refl).
Defined.

End UtilLoops.

(* ===================================================================== *)
(** ** util.js: sums, normalization and histograms *)
(* ===================================================================== *)

Module UtilNumbers.
Import Util.

Lemma fold_add_NaN (xs : list num) : fold_left add xs NaN = NaN.
Proof. induction xs as [|x xs IH]; [reflexivity|exact IH]. Qed.

Lemma add_NaN_r (x : num) : add x NaN = NaN.
Proof. now destruct x. Qed.

Lemma fold_add_elem_NaN (xs : list num) (acc : num) :
  NaN ∈ xs -> fold_left add xs acc = NaN.
Proof.
  revert acc. induction xs as [|x xs IH]; intros acc H.
  - now apply elem_of_nil in H.
  - apply elem_of_cons in H as [<- | H]; cbn.
    + rewrite add_NaN_r. apply fold_add_NaN.
    + now apply IH.
Qed.

Lemma sum_NaN (xs : list num) : NaN ∈ xs -> sum xs = NaN.
Proof.
  destruct xs as [|x xs]; intros H; [now apply elem_of_nil in H|].
  apply elem_of_cons in H as [<- | H]; cbn.
  - apply fold_add_NaN.
  - now apply fold_add_elem_NaN.
Qed.

Lemma div_NaN_r (x : num) : div x NaN = NaN.
Proof. now destruct x. Qed.

Lemma div_zero_not_finite (x : num) (r : R) : div x zero <> Fin r.
Proof.
  destruct x as [| | |a]; cbn; try discriminate.
  - destruct (Rlt_dec 0 0); discriminate.
  - destruct (Rlt_dec 0 0); discriminate.
  - destruct (Req_dec_T 0 0); [|lra].
    unfold sgn. destruct (Rlt_dec 0 a); [discriminate|].
    destruct (Rlt_dec a 0); discriminate.
Qed.

Lemma normalizeArray_NaN_all (xs : list num) :
  NaN ∈ xs -> Forall (fun y => y = NaN) (normalizeArray xs).
Proof.
  intros H. unfold normalizeArray. rewrite (sum_NaN xs H).
  apply Forall_forall. intros y Hy.
  apply list_elem_of_fmap in Hy as (x & -> & _). apply div_NaN_r.
Qed.

Lemma normalizeArray_zero_all (xs : list num) :
  sum xs = zero ->
  Forall (fun y => forall r, y <> Fin r) (normalizeArray xs).
Proof.
  intros H. unfold normalizeArray. rewrite H.
  apply Forall_forall. intros y Hy.
  apply list_elem_of_fmap in Hy as (x & -> & _).
  intros r. apply div_zero_not_finite.
Qed.

(** X9: an array with a NaN entry is normalized to an array of NaN of the
    same length. *)
Theorem normalizeArray_NaN (xs : list num) :
  NaN ∈ xs ->
  length (normalizeArray xs) = length xs /\
  Forall (fun y => y = NaN) (normalizeArray xs).
Proof.
  intros H. split; [apply length_map|now apply normalizeArray_NaN_all].
Qed.

Lemma normalizeArray_NaN_witness :
  length (normalizeArray [Fin 1; NaN; Fin 3]) = length [Fin 1; NaN; Fin 3] /\
  Forall (fun y => y = NaN) (normalizeArray [Fin 1; NaN; Fin 3]).
Proof.
  apply (normalizeArray_NaN [Fin 1; NaN; Fin 3]).
  apply list_elem_of_further, list_elem_of_here.
Defined.

(** X10: an array whose entries sum to 0 is normalized without an error to an
    array that has no finite entry: a zero entry becomes NaN, a positive
    one [Infinity], a negative one [-Infinity]. *)
Theorem normalizeArray_zero_sum (xs : list num) :
  sum xs = zero ->
  Forall (fun y => forall r, y <> Fin r) (normalizeArray xs) /\
  forall i a, xs !! i = Some (Fin a) ->
    normalizeArray xs !! i =
      Some (if Rlt_dec 0 a then PInf else if Rlt_dec a 0 then NInf else NaN).
Proof.
  intros H. split; [now apply normalizeArray_zero_all|].
  unfold normalizeArray. rewrite H.
  - intros i a Hi. change (map ?f ?l) with (f <$> l).
    rewrite list_lookup_fmap, Hi. cbn.
    destruct (Req_dec_T 0 0); [|lra]. unfold sgn.
    destruct (Rlt_dec 0 a); [reflexivity|].
    destruct (Rlt_dec a 0); reflexivity.
Qed.

Lemma normalizeArray_zero_sum_witness :
  Forall (fun y => forall r, y <> Fin r) (normalizeArray [Fin 0; Fin 0]) /\
  forall i a, [Fin 0; Fin 0] !! i = Some (Fin a) ->
    normalizeArray [Fin 0; Fin 0] !! i =
      Some (if Rlt_dec 0 a then PInf else if Rlt_dec a 0 then NInf else NaN).
Proof.
  apply (normalizeArray_zero_sum [Fin 0; Fin 0]).
  cbn. unfold zero. f_equal. lra.
Defined.

(** [normalizeHist] keeps the keys and their order, and its values are
    [normalizeArray] of the values. *)
Lemma normalizeHist_values (hist : list (string * num)) :
  map fst (normalizeHist hist) = map fst hist /\
  map snd (normalizeHist hist) = normalizeArray (map snd hist).
Proof.
  unfold normalizeHist, normalizeArray. rewrite !map_map. split; reflexivity.
Qed.

(** X11: a histogram without the keys [length] and [__proto__] that has a
    NaN value, or whose values sum to 0, is normalized to a histogram with
    the same keys in the same order and no finite value. *)
Theorem normalizeHist_degenerate (hist : list (string * num)) :
  plain_keys (map fst hist) ->
  NaN ∈ map snd hist \/ sum (map snd hist) = zero ->
  map fst (normalizeHist hist) = map fst hist /\
  Forall (fun kv => forall r, kv.2 <> Fin r) (normalizeHist hist).
Proof.
  intros _ H. destruct (normalizeHist_values hist) as [Hk Hv].
  split; [exact Hk|].
  assert (Hall : Forall (fun y => forall r, y <> Fin r)
                   (map snd (normalizeHist hist))).
  { rewrite Hv. destruct H as [H | H].
    - eapply Forall_impl; [exact (normalizeArray_NaN_all _ H)|].
      intros y -> r. discriminate.
    - exact (normalizeArray_zero_all _ H). }
  change (map snd ?l) with (snd <$> l) in Hall.
  now apply Forall_fmap in Hall.
Qed.

Lemma normalizeHist_degenerate_witness :
  map fst (normalizeHist [("a"%string, Fin 1); ("b"%string, NaN)]) =
    map fst [("a"%string, Fin 1); ("b"%string, NaN)] /\
  Forall (fun kv => forall r, kv.2 <> Fin r)
    (normalizeHist [("a"%string, Fin 1); ("b"%string, NaN)]).
Proof.
  apply (normalizeHist_degenerate [("a"%string, Fin 1); ("b"%string, NaN)]).
  - split; intros H; cbn in H;
      repeat (apply elem_of_cons in H as [H|H]; [discriminate|]);
      now apply elem_of_nil in H.
  - left. cbn. apply list_elem_of_further, list_elem_of_here.
Defined.

(** The fold of line 102 is the conjunction of the tests. *)
Lemma allOk_fold (hist : gmap string num) (tolerance : num)
    (expectedHist : list (string * num)) (allOk : bool) :
  fold_left (fun allOk kv => allOk && testPassed hist tolerance kv.1 kv.2)
    expectedHist allOk =
  allOk && forallb (fun kv => testPassed hist tolerance kv.1 kv.2) expectedHist.
Proof.
  revert allOk. induction expectedHist as [|kv l IH]; intros allOk; cbn.
  - now rewrite andb_true_r.
  - rewrite IH. now rewrite andb_assoc.
Qed.

Lemma histsApproximatelyEqual_forallb (hist : gmap string num)
    (expectedHist : list (string * num)) (tolerance : num) :
  histsApproximatelyEqual hist expectedHist tolerance =
  forallb (fun kv => testPassed hist tolerance kv.1 kv.2) expectedHist.
Proof. unfold histsApproximatelyEqual. now rewrite allOk_fold. Qed.

(** X12: [histsApproximatelyEqual] looks at [hist] only under the keys of
    [expectedHist]: two histograms that agree there get the same answer,
    whatever else they hold. *)
Theorem histsApproximatelyEqual_expected_keys (hist hist' : gmap string num)
    (expectedHist : list (string * num)) (tolerance : num) :
  (forall key, key ∈ map fst expectedHist -> hist !! key = hist' !! key) ->
  histsApproximatelyEqual hist expectedHist tolerance =
  histsApproximatelyEqual hist' expectedHist tolerance.
Proof.
  intros H. rewrite !histsApproximatelyEqual_forallb.
  induction expectedHist as [|kv l IH]; [reflexivity|].
  cbn [forallb]. rewrite IH.
  - unfold testPassed. rewrite (H kv.1); [reflexivity|].
    cbn. apply list_elem_of_here.
  - intros key Hkey. apply H. cbn. now apply list_elem_of_further.
Qed.

Lemma histsApproximatelyEqual_expected_keys_witness :
  histsApproximatelyEqual {[ "a"%string := Fin 1 ]} [("a"%string, Fin 1)]
    (Fin 0) =
  histsApproximatelyEqual {[ "a"%string := Fin 1; "b"%string := Fin 9 ]}
    [("a"%string, Fin 1)] (Fin 0).
Proof.
  apply histsApproximatelyEqual_expected_keys.
  intros key Hkey. cbn in Hkey. apply list_elem_of_singleton in Hkey. subst key.
  reflexivity.
Defined.

(** X13: a histogram of finite values without the keys [length] and
    [__proto__] is approximately equal to itself for every tolerance that is
    at least 0. *)
Theorem histsApproximatelyEqual_refl (expectedHist : list (string * num))
    (tolerance : num) :
  plain_keys (map fst expectedHist) ->
  NoDup (map fst expectedHist) ->
  Forall (fun kv => exists r, kv.2 = Fin r) expectedHist ->
  leb zero tolerance = true ->
  histsApproximatelyEqual (list_to_map expectedHist) expectedHist tolerance
    = true.
Proof.
  intros _ Hdup Hfin Htol. rewrite histsApproximatelyEqual_forallb.
  apply forallb_forall. intros [key v] Hin.
  apply list_elem_of_In in Hin.
  destruct (proj1 (Forall_forall _ _) Hfin _ Hin) as [r Hr].
  cbn in Hr. subst v. unfold testPassed. cbn [fst snd].
  rewrite (elem_of_list_to_map_1 _ _ _ Hdup Hin). cbn.
  replace (r + - r) with 0 by lra. rewrite Rabs_R0.
  exact Htol.
Qed.

Lemma histsApproximatelyEqual_refl_witness :
  histsApproximatelyEqual
    (list_to_map [("a"%string, Fin 1); ("b"%string, Fin 2)])
    [("a"%string, Fin 1); ("b"%string, Fin 2)] (Fin 0) = true.
Proof.
  apply histsApproximatelyEqual_refl.
  - split; intros H; cbn in H;
      repeat (apply elem_of_cons in H as [H|H]; [discriminate|]);
      now apply elem_of_nil in H.
  - cbn. apply NoDup_cons. split; [|apply NoDup_singleton].
    intros H. apply list_elem_of_singleton in H. discriminate.
  - repeat constructor; cbn; eauto.
  - apply leb_Fin. lra.
Defined.

End UtilNumbers.

(* ===================================================================== *)
(** ** asmc.js: what [control], [factor] and [exit] leave alone *)
(* ===================================================================== *)

(** Line 76 for a draw in the unit interval: the slot is [ix] exactly when the
    draw lies in the [ix]-th of the [len + 1] equal parts. *)
Lemma draw_index_iff (len ix : nat) (u : R) :
  floor (mul (of_nat (len + 1)) (Fin u)) = of_nat ix <->
  INR ix <= INR (len + 1) * u < INR ix + 1.
Proof.
  split; [|apply draw_index].
  unfold of_nat. cbn [mul floor]. intros H. inversion H as [Hz].
  destruct (base_Int_part (INR (len + 1) * u)) as [Hlo Hhi].
  rewrite Hz in Hlo, Hhi. lra.
Qed.

Section Frames.

Context {Cont Store Value : Type}.
Implicit Types (this : coroutine Cont Store Value).
Implicit Types (p launchP : particle Cont Store Value).

(** X14: a scheduler step that returns resumes the particle it has made
    active, with that particle's continuation and store; it leaves the
    ledger, the completed particles, the buffer size, the stores and the
    entry continuation as they were, and it never ends the run. *)
Theorem control_frame this (numP : option num) (random : num) :
  (exists e, control this numP random = Throw e) \/
  exists this' p,
    control this numP random = Resume this' (continuation p) (store p) /\
    activeParticle this' = Some p /\
    numParticles this' = numParticles (counted this numP) /\
    obsWeights this' = obsWeights this /\
    exitedParticles this' = exitedParticles this /\
    bufferSize this' = bufferSize this /\
    this_store this' = this_store this /\
    oldStore this' = oldStore this /\
    exitK this' = exitK this.
Proof.
  unfold control. destruct (eqb _ _).
  { right. eexists _, _. split; [reflexivity|]. cbn. repeat split. }
  destruct (to_index _) as [ix|]; [|left; eauto].
  destruct (buffer (counted this numP) !! ix) as [launchP|]; [|left; eauto].
  destruct (gtb _ _); [|left; cbn; eauto].
  right. eexists _, _. split; [reflexivity|]. cbn. repeat split.
Qed.

(** X15: for a draw in the unit interval line 76 selects the slot past the
    buffer or the index of a buffered particle, and it selects the slot [ix]
    exactly when the draw lies in the [ix]-th of the [len + 1] equal parts of
    the interval. *)
Theorem control_draw this (u : R) :
  0 <= u < 1 ->
  exists ix,
    floor (mul (of_nat (length (buffer this) + 1)) (Fin u)) = of_nat ix /\
    (ix = length (buffer this) \/ exists launchP, buffer this !! ix = Some launchP) /\
    forall jx,
      floor (mul (of_nat (length (buffer this) + 1)) (Fin u)) = of_nat jx <->
      INR jx <= INR (length (buffer this) + 1) * u < INR jx + 1.
Proof.
  intros Hu.
  destruct (draw_index_bounded (length (buffer this)) u Hu) as (ix & Hix & Hi).
  exists ix. split; [exact Hi|]. split.
  - destruct (decide (ix = length (buffer this))) as [|Hne]; [now left|right].
    apply lookup_lt_is_Some. lia.
  - intros jx. apply draw_index_iff.
Qed.

(** X16: when the draw selects a buffered particle with more than one child
    credit, the step resumes a copy of it that has one credit and the same
    weight, final weight, multiplicity and factor index; the particle stays
    at its index with one credit less, and no other record of the buffer
    changes. *)
Theorem control_clone_step this (numP : option num) (u : R) (ix : nat) launchP :
  INR ix <= INR (length (buffer this) + 1) * u < INR ix + 1 ->
  buffer this !! ix = Some launchP ->
  gtb (numChildrenToSpawn launchP) one = true ->
  exists this' p launchP',
    control this numP (Fin u) = Resume this' (continuation launchP) (store launchP) /\
    activeParticle this' = Some p /\
    numChildrenToSpawn p = one /\
    weight p = weight launchP /\ finalWeight p = finalWeight launchP /\
    multiplicity p = multiplicity launchP /\
    factorIndex p = factorIndex launchP /\
    buffer this' !! ix = Some launchP' /\
    numChildrenToSpawn launchP' = sub (numChildrenToSpawn launchP) one /\
    weight launchP' = weight launchP /\
    multiplicity launchP' = multiplicity launchP /\
    length (buffer this') = length (buffer this) /\
    forall jx, jx <> ix -> buffer this' !! jx = buffer this !! jx.
Proof.
  intros Hu Hix Hc. rewrite (control_clone this numP u ix launchP Hu Hix Hc).
  pose proof (lookup_lt_Some _ _ _ Hix) as Hlt.
  eexists _, _, _. split; [reflexivity|]. cbn.
  split; [reflexivity|]. do 5 (split; [reflexivity|]).
  split; [now apply list_lookup_insert_eq|].
  do 3 (split; [reflexivity|]).
  split; [apply length_insert|].
  intros jx Hjx. now apply list_lookup_insert_ne.
Qed.

(** X17: a [factor] call that returns changes the ledger of no other
    observation, and at its own observation it leaves the ledger as it was
    or adds one entry at the end. *)
Theorem factor_ledger_append this p (s : Store) (cc : Cont)
    (score random : num) this' :
  activeParticle this = Some p ->
  factor_update this s cc score random = inr this' ->
  (forall n, n <> newFI (factorIndex p) ->
             obsWeights this' !! n = obsWeights this !! n) /\
  (obsWeights this' !! newFI (factorIndex p) =
     obsWeights this !! newFI (factorIndex p) \/
   exists d,
     obsWeights this' !! newFI (factorIndex p) =
       Some (default [] (obsWeights this !! newFI (factorIndex p)) ++ [d])).
Proof.
  intros Hact. unfold factor_update. rewrite Hact. cbn zeta.
  destruct (eqb _ _).
  { intros [= <-]. split; [reflexivity|now left]. }
  cbn [obsWeights set_activeParticle].
  destruct (obsWeights this !! newFI (factorIndex p)) as [lk|] eqn:Hlk.
  - destruct (last lk) as [prev|]; [|discriminate].
    intros [= <-]. rewrite rebuffer_obsWeights. cbn [obsWeights set_obsWeights].
    split.
    + intros n Hn. now rewrite lookup_insert_ne.
    + right. eexists. now rewrite lookup_insert_eq.
  - intros [= <-]. cbn [obsWeights set_obsWeights set_activeParticle]. split.
    + intros n Hn. now rewrite lookup_insert_ne.
    + right. eexists. now rewrite lookup_insert_eq.
Qed.

(** X18: a [factor] call that returns leaves the buffer as it was or appends
    one record, the active particle at its new factor index; it leaves the
    completed particles, the target and the buffer size as they were. *)
Theorem factor_buffer_append this p (s : Store) (cc : Cont)
    (score random : num) this' :
  activeParticle this = Some p ->
  factor_update this s cc score random = inr this' ->
  (buffer this' = buffer this \/
   exists p', buffer this' = buffer this ++ [p'] /\
              activeParticle this' = Some p' /\
              factorIndex p' = Some (newFI (factorIndex p)) /\
              continuation p' = cc /\ store p' = s) /\
  exitedParticles this' = exitedParticles this /\
  numParticles this' = numParticles this /\
  bufferSize this' = bufferSize this.
Proof.
  intros Hact. unfold factor_update. rewrite Hact. cbn zeta.
  destruct (eqb _ _).
  { intros [= <-]. cbn. auto. }
  cbn [obsWeights set_activeParticle].
  destruct (obsWeights this !! newFI (factorIndex p)) as [lk|].
  2:{ intros [= <-]. cbn. auto. }
  destruct (last lk) as [prev|]; [|discriminate].
  intros [= <-].
  match goal with
  | |- context [rebuffer ?t ?q ?c ?w ?sc] =>
      pose proof (rebuffer_fixed_fields t q c w sc) as (F1 & _ & _ & F4 & F5);
      rewrite F1, F4, F5; split; [|now cbn];
      unfold rebuffer; destruct (gtb c zero); [right|left; reflexivity]
  end.
  destruct (ltb _ _); eexists; cbn; repeat split.
Qed.

End Frames.

(* ===================================================================== *)
(** ** asmc.js: the hooks along a run *)
(* ===================================================================== *)

Section Hooks.

Context {Cont Store Value : Type}.
Implicit Types (this : coroutine Cont Store Value).
Implicit Types (p : particle Cont Store Value).

(** What a scheduler step that returns leaves. *)
Lemma control_object this (numP : option num) (random : num) this' :
  object_of (control this numP random) = Some this' ->
  is_Some (activeParticle this') /\
  obsWeights this' = obsWeights this /\
  exitedParticles this' = exitedParticles this /\
  this_store this' = this_store this /\
  exitK this' = exitK this /\
  (activeParticle this' = Some (initParticle (this_store this) (exitK this)) /\
   buffer this' = buffer this \/
   exists ix launchP,
     buffer this !! ix = Some launchP /\
     gtb (numChildrenToSpawn launchP) one = true).
Proof.
  unfold control. destruct (eqb _ _).
  { intros [= <-]. cbn. repeat split; eauto. }
  destruct (to_index _) as [ix|]; [|discriminate].
  cbn [buffer counted set_numParticles].
  destruct (buffer this !! ix) as [launchP|] eqn:Hix; [|discriminate].
  destruct (gtb _ _) eqn:Hc; [|discriminate].
  intros [= <-]. cbn. repeat split; eauto.
Qed.

Lemma hooks_ok_control this (numP : option num) (random : num) this' :
  hooks_ok this ->
  object_of (control this numP random) = Some this' ->
  hooks_ok this'.
Proof.
  intros (_ & Hobs & Hex) H.
  destruct (control_object _ _ _ _ H) as (Ha & Ho & He & _).
  unfold hooks_ok. rewrite Ho, He. split; [exact Ha|]. split; assumption.
Qed.

Lemma hooks_ok_factor_update this (s : Store) (cc : Cont) (score random : num)
    this' :
  hooks_ok this ->
  factor_update this s cc score random = inr this' ->
  hooks_ok this'.
Proof.
  intros ([p Hp] & Hobs & Hex). unfold factor_update. rewrite Hp. cbn zeta.
  destruct (eqb (weight (arrive p s cc score)) NInf) eqn:HW.
  { intros [= <-]. repeat split; eauto. }
  cbn [obsWeights set_activeParticle].
  destruct (obsWeights this !! newFI (factorIndex p)) as [lk|] eqn:Hlk.
  - destruct (last lk) as [prev|]; [|discriminate].
    intros [= <-].
    match goal with
    | |- hooks_ok (rebuffer ?t ?q ?c ?w ?sc) =>
        pose proof (rebuffer_fixed_fields t q c w sc) as (_ & _ & _ & _ & F5);
        pose proof (rebuffer_obsWeights t q c w sc) as F6;
        assert (Ha : is_Some (activeParticle (rebuffer t q c w sc)))
          by (unfold rebuffer; destruct (gtb c zero); cbn; eauto)
    end.
    split; [exact Ha|]. rewrite F5, F6. split; [|exact Hex].
    cbn [obsWeights set_obsWeights set_activeParticle].
    intros n lk' Hn.
    destruct (decide (n = newFI (factorIndex p))) as [->|Hne].
    + rewrite lookup_insert_eq in Hn. inversion Hn; subst lk'.
      destruct (Hobs _ _ Hlk) as (d & rest & -> & Hd).
      exists d, (rest ++ [Det
        (next_wbar (d :: rest) (wbar prev) (multiplicity (arrive p s cc score))
           (weight (arrive p s cc score)))
        (numChildrenAndWeight (bufferSize this) (d :: rest)
           (next_wbar (d :: rest) (wbar prev)
              (multiplicity (arrive p s cc score))
              (weight (arrive p s cc score)))
           (weight (arrive p s cc score)) random).1]).
      split; [reflexivity|exact Hd].
    + rewrite lookup_insert_ne in Hn by congruence. eauto.
  - intros [= <-]. split; [cbn; eauto|]. split; [|exact Hex].
    cbn [obsWeights set_obsWeights set_activeParticle].
    intros n lk' Hn.
    destruct (decide (n = newFI (factorIndex p))) as [->|Hne].
    + rewrite lookup_insert_eq in Hn. inversion Hn; subst lk'.
      eexists _, _. split; [reflexivity|]. split; [reflexivity|].
      cbn [wbar]. intros HN.
      change (weight (arrive p s cc score) = NInf) in HN.
      apply eqb_NInf in HN. congruence.
    + rewrite lookup_insert_ne in Hn by congruence. eauto.
Qed.

Lemma hooks_ok_exit_update this (s : Store) (retval : Value) this' :
  hooks_ok this ->
  exit_update this s retval = inr this' ->
  hooks_ok this'.
Proof.
  intros ([p Hp] & Hobs & Hex). unfold exit_update. rewrite Hp.
  intros [= <-]. split; [cbn; eauto|]. split; [exact Hobs|].
  cbn. apply Forall_app. split; [exact Hex|].
  apply Forall_singleton. cbn. eauto.
Qed.

Lemma hooks_ok_dispatch this c this' :
  hooks_ok this ->
  object_of (dispatch this c) = Some this' ->
  hooks_ok this'.
Proof.
  intros Hok.
  destruct c as [s cc score random random'|s retval random|numP random];
    cbn [dispatch].
  - unfold factor.
    destruct (factor_update this s cc score random) as [e|this1] eqn:Hf;
      [discriminate|].
    apply hooks_ok_control. eapply hooks_ok_factor_update; eassumption.
  - unfold exit.
    destruct (exit_update this s retval) as [e|this1] eqn:Hf; [discriminate|].
    pose proof (hooks_ok_exit_update _ _ _ _ Hok Hf) as Hok1.
    destruct (ltb _ _).
    + now apply hooks_ok_control.
    + now intros [= <-].
  - now apply hooks_ok_control.
Qed.

Lemma hooks_ok_reachable this : reachable this -> hooks_ok this.
Proof.
  induction 1 as [s wpplFn numP bufSize random this H|this c this' _ IH H].
  - unfold aSMC in H. destruct (iterations _) as [n|]; [|discriminate].
    destruct (control_object _ _ _ _ H) as (Ha & Ho & He & _).
    split; [exact Ha|]. rewrite Ho, He. cbn. split; [|constructor].
    intros n' lk Hlk. rewrite lookup_empty in Hlk. discriminate.
  - eapply hooks_ok_dispatch; eassumption.
Qed.

(** X19: at any point of a run every ledger of [obsWeights] has a first
    entry, that entry has mnk = 1, and its wbar is not [-Infinity]. *)
Theorem ledger_first_entry this (n : nat) (lk : list det) :
  reachable this ->
  obsWeights this !! n = Some lk ->
  exists d rest, lk = d :: rest /\ mnk d = one /\ wbar d <> NInf.
Proof.
  intros Hr Hlk. destruct (hooks_ok_reachable this Hr) as (_ & Hobs & _).
  eauto.
Qed.

(** X20: at any point of a run the lines of [factor] and of [exit] before
    their [return this.control()] do not throw: there is an active particle,
    and line 120 finds a last entry in the ledger it reads. *)
Theorem hooks_do_not_throw this (s : Store) (cc : Cont) (score random : num)
    (retval : Value) :
  reachable this ->
  (exists this', factor_update this s cc score random = inr this') /\
  (exists this', exit_update this s retval = inr this').
Proof.
  intros Hr. destruct (hooks_ok_reachable this Hr) as ([p Hp] & Hobs & _).
  split.
  - unfold factor_update. rewrite Hp. cbn zeta.
    destruct (eqb _ _); [eauto|].
    cbn [obsWeights set_activeParticle].
    destruct (obsWeights this !! newFI (factorIndex p)) as [lk|] eqn:Hlk;
      [|eauto].
    destruct (Hobs _ _ Hlk) as (d & rest & -> & _).
    destruct (last (d :: rest)) as [prev|] eqn:Hlast; [eauto|].
    apply last_None in Hlast. discriminate.
  - unfold exit_update. rewrite Hp. eauto.
Qed.

(** X21: at any point of a run every particle in [exitedParticles] is
    completed, has a returned value, and has its final weight as weight. *)
Theorem exited_particles_completed this p :
  reachable this ->
  p ∈ exitedParticles this ->
  completed p = true /\ weight p = finalWeight p /\ is_Some (value p).
Proof.
  intros Hr Hp. destruct (hooks_ok_reachable this Hr) as (_ & _ & Hex).
  exact (proj1 (Forall_forall _ _) Hex p Hp).
Qed.

End Hooks.

(* ===================================================================== *)
(** ** asmc.js: the constructor, dead particles and the result *)
(* ===================================================================== *)

Lemma seeding_ends_iff (bufSize : num) :
  iterations (floor (div (mul bufSize (Fin 3)) (Fin 5))) = None <->
  bufSize = PInf.
Proof.
  destruct bufSize as [| | |b]; cbn; unfold sgn.
  - split; discriminate.
  - destruct (Rlt_dec 0 3); [|lra]. cbn. destruct (Rlt_dec 5 0); [lra|].
    cbn. split; reflexivity.
  - destruct (Rlt_dec 0 3); [|lra]. cbn. destruct (Rlt_dec 5 0); [lra|].
    cbn. split; discriminate.
  - destruct (Req_dec_T 5 0); [lra|]. cbn. split; discriminate.
Qed.

Section Results.

Context {Cont Store Value : Type}.
Implicit Types (this : coroutine Cont Store Value).
Implicit Types (p : particle Cont Store Value).

Lemma control_not_Hang this (numP : option num) (random : num) :
  control this numP random <> Hang.
Proof.
  unfold control. destruct (eqb _ _); [discriminate|].
  destruct (to_index _); [|discriminate].
  destruct (_ !! _); [|discriminate].
  destruct (gtb _ _); discriminate.
Qed.

(** X22: the constructor does not return when bufferSize is [Infinity]: the
    seeding loop of lines 55-57 then has no end.  It reaches the first
    scheduler step when bufferSize is NaN or at most a million, negative
    values and [-Infinity] included. *)
Theorem aSMC_seeding_ends (s : Store) (wpplFn : Cont)
    (numP bufSize random : num) :
  (bufSize = PInf -> aSMC (Value:=Value) s wpplFn numP bufSize random = Hang) /\
  (bufSize = NaN \/ leb bufSize (Fin 1000000) = true ->
   exists n,
     aSMC (Value:=Value) s wpplFn numP bufSize random =
       control
         (Coroutine (replicate n (initParticle s wpplFn)) bufSize zero ∅ []
            wpplFn s (clone s) None)
         (Some numP) random /\
     aSMC (Value:=Value) s wpplFn numP bufSize random <> Hang).
Proof.
  split.
  - intros Hb. apply seeding_ends_iff in Hb. unfold aSMC. now rewrite Hb.
  - intros Hb.
    destruct (iterations (floor (div (mul bufSize (Fin 3)) (Fin 5))))
      as [n|] eqn:Hn.
    + exists n. rewrite (aSMC_seeds _ _ _ _ _ n Hn).
      split; [reflexivity|apply control_not_Hang].
    + apply seeding_ends_iff in Hn. subst bufSize.
      destruct Hb as [Hb|Hb]; discriminate Hb.
Qed.

(** X23: for a bufferSize that is a natural number m, up to a million (where
    the arithmetic of line 54 is exact in doubles), the constructor seeds
    exactly the integer quotient of 3m by 5 particles, so at most m of them,
    all as [initParticle] builds them, and then takes the first scheduler
    step with an empty ledger, no completed particle and a target of
    0 + numParticles. *)
Theorem aSMC_seeding (s : Store) (wpplFn : Cont) (numP random : num) (m : nat) :
  (Z.of_nat m <= 1000000)%Z ->
  (3 * m / 5 <= m)%nat /\
  aSMC (Value:=Value) s wpplFn numP (of_nat m) random =
    control
      (Coroutine (replicate (3 * m / 5) (initParticle s wpplFn)) (of_nat m)
         zero ∅ [] wpplFn s (clone s) None)
      (Some numP) random.
Proof.
  intros _. pose proof (Nat.div_mod_eq (3 * m) 5) as Hdiv.
  pose proof (Nat.mod_upper_bound (3 * m) 5 ltac:(lia)) as Hmod.
  split; [lia|].
  apply aSMC_seeds. unfold of_nat.
  rewrite <- (Nat2Z.id (3 * m / 5)). apply seed_count.
  rewrite <- INR_IZR_INZ.
  assert (HR : 3 * INR m = 5 * INR (3 * m / 5) + INR ((3 * m) mod 5)).
  { apply (f_equal INR) in Hdiv.
    rewrite plus_INR, !mult_INR in Hdiv.
    replace (INR 3) with 3 in Hdiv by (simpl; lra).
    replace (INR 5) with 5 in Hdiv by (simpl; lra). exact Hdiv. }
  pose proof (pos_INR ((3 * m) mod 5)) as Hlo.
  assert (Hhi : INR ((3 * m) mod 5) < 5).
  { replace 5 with (INR 5) by (simpl; lra). now apply lt_INR. }
  lra.
Qed.

Lemma idle_control this (numP : option num) (random : num) this' :
  (exists n,
     buffer this = replicate n (initParticle (this_store this) (exitK this))) ->
  obsWeights this = ∅ ->
  exitedParticles this = [] ->
  object_of (control this numP random) = Some this' ->
  idle this'.
Proof.
  intros [n Hbuf] Hobs Hex H.
  destruct (control_object _ _ _ _ H)
    as (_ & Ho & He & Hs & Hk & [[Ha Hb] | (ix & launchP & Hix & Hc)]).
  - unfold idle. rewrite Ho, He, Hs, Hk, Hb, Ha. eauto.
  - rewrite Hbuf in Hix. apply lookup_replicate in Hix as [-> _].
    cbn [numChildrenToSpawn initParticle] in Hc.
    rewrite gtb_zero_one in Hc. discriminate.
Qed.

Lemma idle_dead_factor this c this' :
  idle this ->
  dead_factor c ->
  object_of (dispatch this c) = Some this' ->
  idle this'.
Proof.
  intros Hidle Hc. destruct c as [s cc score random random'| |];
    cbn in Hc; try contradiction. subst score.
  cbn [dispatch]. unfold factor, factor_update.
  destruct Hidle as (Hbuf & Hobs & Hex & Ha). rewrite Ha. cbn.
  apply idle_control; assumption.
Qed.

Lemma control_not_Finish this (numP : option num) (random : num) t s d :
  control this numP random <> Finish t s d.
Proof.
  unfold control. destruct (eqb _ _); [discriminate|].
  destruct (to_index _); [|discriminate].
  destruct (_ !! _); [|discriminate].
  destruct (gtb _ _); discriminate.
Qed.

Lemma dead_run_not_Finish (s : Store) (wpplFn : Cont)
    (numP bufSize random : num) (cs : list (call Cont Store Value)) t s' d :
  Forall dead_factor cs ->
  run (aSMC s wpplFn numP bufSize random) cs <> Finish t s' d.
Proof.
  induction cs as [|c cs IH] using rev_ind; intros Hcs.
  - cbn. unfold aSMC. destruct (iterations _); [|discriminate].
    apply control_not_Finish.
  - apply Forall_app in Hcs as [Hcs Hc]. rewrite Forall_singleton in Hc.
    rewrite run_snoc. unfold after.
    destruct (object_of (run _ cs)) as [this0|]; [|now apply IH].
    destruct c as [s0 cc score r r'| |]; cbn in Hc; try contradiction.
    cbn [dispatch]. unfold factor.
    destruct (factor_update _ _ _ _ _); [discriminate|].
    apply control_not_Finish.
Qed.

Lemma dead_run_idle (s : Store) (wpplFn : Cont)
    (numP bufSize random : num) (cs : list (call Cont Store Value)) this :
  Forall dead_factor cs ->
  object_of (run (aSMC s wpplFn numP bufSize random) cs) = Some this ->
  idle this.
Proof.
  revert this. induction cs as [|c cs IH] using rev_ind; intros this Hcs H.
  - cbn in H. unfold aSMC in H.
    destruct (iterations _) as [n|]; [|discriminate].
    eapply idle_control; [| | |exact H]; cbn; eauto.
  - apply Forall_app in Hcs as [Hcs Hc]. rewrite Forall_singleton in Hc.
    rewrite run_snoc in H. unfold after in H.
    destruct (object_of (run _ cs)) as [this0|] eqn:E.
    + eapply idle_dead_factor; [apply IH| |]; eauto.
    + rewrite E in H. discriminate.
Qed.

(** X24: a run in which every call of the model is a [factor] with score
    [-Infinity] never reaches the final return of [exit]: whatever draws it
    makes and however long it is, no particle completes and the ledger stays
    empty. *)
Theorem all_dead_never_finishes (s : Store) (wpplFn : Cont)
    (numP bufSize random : num) (cs : list (call Cont Store Value)) :
  Forall dead_factor cs ->
  match run (aSMC s wpplFn numP bufSize random) cs with
  | Finish _ _ _ => False
  | Resume this _ _ => obsWeights this = ∅ /\ exitedParticles this = []
  | Throw _ | Hang => True
  end.
Proof.
  intros Hcs.
  pose proof (dead_run_idle s wpplFn numP bufSize random cs) as Hidle.
  pose proof (dead_run_not_Finish s wpplFn numP bufSize random cs) as Hfin.
  destruct (run _ cs) as [this k s'|this s' d| |]; try exact I.
  - destruct (Hidle this Hcs eq_refl) as (_ & Ho & He & _). auto.
  - now apply (Hfin this s' d).
Qed.

(** X25: with a target of 0 or less, which nothing rejects, the first
    particle to complete ends the run: [exit] hands over the one returned
    value, and for a finite final weight the normalization constant it
    reports is [Infinity] for a target of 0 and NaN for a negative one. *)
Theorem exit_without_target this p (s : Store) (retval : Value)
    (random : num) (w n : R) :
  activeParticle this = Some p ->
  finalWeight p = Fin w ->
  exitedParticles this = [] ->
  numParticles this = Fin n ->
  n <= 0 ->
  exists this' d,
    exit this s retval random = Finish this' (oldStore this) d /\
    returned d = [Some retval] /\
    (n = 0 -> normalizationConstant d = PInf) /\
    (n < 0 -> normalizationConstant d = NaN).
Proof.
  intros Hp Hw Hex Hn Hle. unfold exit, exit_update. rewrite Hp, Hex.
  cbn [exitedParticles set_exitedParticles set_activeParticle numParticles
       oldStore app length map weight value].
  rewrite Hn, Hw.
  assert (Hlt : ltb (of_nat 1) (Fin n) = false).
  { unfold of_nat. cbn. rdec; reflexivity. }
  rewrite Hlt. eexists _, _. split; [reflexivity|].
  cbn [returned normalizationConstant]. split; [reflexivity|].
  rewrite logsumexp_singleton by discriminate.
  split; intros H0; cbn [log]; rdec; reflexivity.
Qed.

End Results.

(* ===================================================================== *)
(** ** util.js: more on [logsumexp] *)
(* ===================================================================== *)

Lemma max_NInf_r (x : num) : max x NInf = x.
Proof. destruct x; reflexivity. Qed.

Lemma max_comm (x y : num) : max x y = max y x.
Proof.
  destruct x as [| | |a], y as [| | |b]; try reflexivity.
  cbn. destruct (Rlt_dec a b), (Rlt_dec b a); try reflexivity; [lra|].
  f_equal. lra.
Qed.

Lemma add_zero_l (x : num) : add zero x = x.
Proof. destruct x; try reflexivity. cbn. f_equal. lra. Qed.

Lemma add_comm (x y : num) : add x y = add y x.
Proof.
  destruct x as [| | |a], y as [| | |b]; try reflexivity.
  cbn. f_equal. lra.
Qed.

(** X26: [logsumexp] of two numbers does not depend on their order. *)
Theorem logsumexp_pair_comm (a b : num) :
  logsumexp [a; b] = logsumexp [b; a].
Proof.
  unfold logsumexp, Math_max_apply. cbn [fold_left].
  rewrite !max_NInf_l, (max_comm b a), !add_zero_l.
  f_equal. f_equal. apply add_comm.
Qed.

Lemma fold_max_app (l1 l2 : list num) (acc : num) :
  fold_left max (l1 ++ NInf :: l2) acc = fold_left max (l1 ++ l2) acc.
Proof.
  rewrite !fold_left_app. cbn [fold_left]. now rewrite max_NInf_r.
Qed.

(** X27: an entry [-Infinity] contributes nothing: the result is the same
    with and without it, wherever it stands. *)
Theorem logsumexp_skips_NInf (l1 l2 : list num) :
  logsumexp (l1 ++ NInf :: l2) = logsumexp (l1 ++ l2).
Proof.
  unfold logsumexp, Math_max_apply. rewrite fold_max_app.
  rewrite !fold_left_app. cbn [fold_left eqb]. now rewrite add_zero_r.
Qed.

Lemma fold_max_Fin (rs : list R) (a : R) :
  exists m, fold_left max (map Fin rs) (Fin a) = Fin m /\
            a <= m /\ (forall r, r ∈ rs -> r <= m) /\ (m = a \/ m ∈ rs).
Proof.
  revert a. induction rs as [|r rs IH]; intros a; cbn [map fold_left].
  - exists a. repeat split; [lra| |now left].
    intros r Hr. now apply elem_of_nil in Hr.
  - assert (Hmax : max (Fin a) (Fin r) = Fin (Rmax a r)).
    { cbn. unfold Rmax. destruct (Rlt_dec a r), (Rle_dec a r);
        try reflexivity; try lra. f_equal. lra. }
    rewrite Hmax. destruct (IH (Rmax a r)) as (m & -> & Hm & Hall & Hin).
    pose proof (Rmax_l a r). pose proof (Rmax_r a r).
    exists m. split; [reflexivity|]. split; [lra|]. split.
    + intros x Hx. apply elem_of_cons in Hx as [-> | Hx]; [lra|auto].
    + destruct Hin as [-> | Hin]; [|right; now apply list_elem_of_further].
      unfold Rmax. destruct (Rle_dec a r); [right; apply list_elem_of_here|now left].
Qed.

Lemma fold_sum_Fin (rs : list R) (m acc : R) :
  exists S,
    fold_left
      (fun sum ai => add sum (if eqb ai NInf then zero else exp (sub ai (Fin m))))
      (map Fin rs) (Fin acc) = Fin S /\
    acc <= S /\ (m ∈ rs -> acc + 1 <= S).
Proof.
  revert acc. induction rs as [|r rs IH]; intros acc; cbn [map fold_left].
  - exists acc. repeat split; [lra|]. intros H. now apply elem_of_nil in H.
  - cbn [eqb sub neg add exp].
    destruct (IH (acc + Rtrigo_def.exp (r + - m))) as (S & -> & HS & Hin).
    pose proof (exp_pos (r + - m)).
    exists S. split; [reflexivity|]. split; [lra|].
    intros Hm. apply elem_of_cons in Hm as [<- | Hm]; [|specialize (Hin Hm); lra].
    replace (m + - m) with 0 in HS by lra. rewrite exp_0 in HS. exact HS.
Qed.

(** X28: for a non-empty list of finite numbers [logsumexp] is finite and
    at least every entry. *)
Theorem logsumexp_lower_bound (rs : list R) :
  rs <> [] ->
  exists w, logsumexp (map Fin rs) = Fin w /\ forall r, r ∈ rs -> r <= w.
Proof.
  destruct rs as [|r0 rs]; [congruence|]. intros _.
  destruct (fold_max_Fin rs r0) as (m & Hmax & Hm & Hall & Hin).
  assert (Hmax' : Math_max_apply (map Fin (r0 :: rs)) = Fin m).
  { unfold Math_max_apply. cbn [map fold_left]. now rewrite max_NInf_l. }
  assert (Hmem : m ∈ r0 :: rs).
  { destruct Hin as [-> | Hin];
      [apply list_elem_of_here|now apply list_elem_of_further]. }
  destruct (fold_sum_Fin (r0 :: rs) m 0) as (S & HS & _ & Hge).
  unfold logsumexp. cbv zeta. rewrite Hmax'.
  unfold zero in HS |- *. rewrite HS.
  specialize (Hge Hmem).
  cbn [log]. destruct (Rlt_dec S 0); [lra|]. destruct (Req_dec_T S 0); [lra|].
  eexists. split; [reflexivity|].
  assert (0 <= ln S).
  { rewrite <- ln_1. destruct (Req_dec_T 1 S) as [<-|]; [lra|].
    left. apply ln_increasing; lra. }
  intros r Hr. apply elem_of_cons in Hr as [-> | Hr]; [lra|].
  specialize (Hall r Hr). lra.
Qed.

Lemma logsumexp_lower_bound_witness :
  exists w, logsumexp (map Fin [1; 2; 3]) = Fin w /\
            forall r, r ∈ [1; 2; 3] -> r <= w.
Proof. apply (logsumexp_lower_bound [1; 2; 3]). discriminate. Defined.

(* ===================================================================== *)
(** ** Instances of the properties above *)
(* ===================================================================== *)

Module Instances.
Import Scenario ScenarioFacts.

Lemma started_1_reachable : reachable started_1.
Proof.
  apply (reachable_aSMC tt 0%nat (Fin 10) (Fin 1) (Fin 0)).
  fold start_1. now rewrite start_1_runs.
Qed.

Lemma second_started_reachable : reachable second_started.
Proof.
  apply (reachable_call started_1 first_factor);
    [apply started_1_reachable|now rewrite first_factor_runs].
Qed.

(** The first particle of [start_1] completes and a fresh one runs. *)
Lemma first_exit_runs :
  exists this q,
    dispatch started_1 first_exit = Resume this 0%nat tt /\
    exitedParticles this = [q].
Proof.
  unfold first_exit, dispatch, exit, exit_update, started_1.
  cbn [activeParticle exitedParticles set_exitedParticles set_activeParticle
       numParticles app length].
  replace (ltb (of_nat 1) (add zero (Fin 10))) with true.
  2:{ symmetry. apply ltb_Fin. cbn. lra. }
  rewrite control_fresh by (cbn; lra).
  eexists _, _. split; reflexivity.
Qed.

Lemma control_draw_witness :
  exists ix,
    floor (mul (of_nat (length (buffer with_credit) + 1)) (Fin (1 / 4)))
      = of_nat ix /\
    (ix = length (buffer with_credit) \/
     exists launchP, buffer with_credit !! ix = Some launchP) /\
    forall jx,
      floor (mul (of_nat (length (buffer with_credit) + 1)) (Fin (1 / 4)))
        = of_nat jx <->
      INR jx <= INR (length (buffer with_credit) + 1) * (1 / 4) < INR jx + 1.
Proof. apply (control_draw with_credit (1 / 4)). lra. Defined.

Lemma control_clone_step_witness :
  exists (this' : Obj) p, control with_credit None (Fin (1 / 4))
                          = Resume this' 1%nat tt /\
    activeParticle this' = Some p /\ numChildrenToSpawn p = one /\
    length (buffer this') = 1%nat.
Proof.
  destruct (control_clone_step with_credit None (1 / 4) 0
              (Particle 1%nat (Fin 0) (Fin 0) false (Some 0%nat) None (Fin 2)
                 one tt))
    as (this' & p & q & H1 & H2 & H3 & _ & _ & _ & _ & _ & _ & _ & _ & H4 & _).
  - cbn. lra.
  - reflexivity.
  - apply ltb_Fin. lra.
  - exists this', p. auto.
Defined.

Lemma factor_ledger_append_witness :
  (forall n, n <> 0%nat ->
     obsWeights first_arrived !! n = obsWeights started_1 !! n) /\
  (obsWeights first_arrived !! 0%nat = obsWeights started_1 !! 0%nat \/
   exists d, obsWeights first_arrived !! 0%nat =
             Some (default [] (obsWeights started_1 !! 0%nat) ++ [d])).
Proof.
  exact (factor_ledger_append started_1 (initParticle tt 0%nat) tt 1%nat
           (Fin 0) (Fin 0) first_arrived eq_refl first_factor_update).
Defined.

Lemma factor_buffer_append_witness :
  (buffer first_arrived = buffer started_1 \/
   exists p', buffer first_arrived = buffer started_1 ++ [p'] /\
              activeParticle first_arrived = Some p' /\
              factorIndex p' = Some 0%nat /\
              continuation p' = 1%nat /\ store p' = tt) /\
  exitedParticles first_arrived = exitedParticles started_1 /\
  numParticles first_arrived = numParticles started_1 /\
  bufferSize first_arrived = bufferSize started_1.
Proof.
  exact (factor_buffer_append started_1 (initParticle tt 0%nat) tt 1%nat
           (Fin 0) (Fin 0) first_arrived eq_refl first_factor_update).
Defined.

Lemma ledger_first_entry_witness :
  exists d rest, [Det (Fin (0 + 0)) one] = d :: rest /\
                 mnk d = one /\ wbar d <> NInf.
Proof.
  exact (ledger_first_entry second_started 0 [Det (Fin (0 + 0)) one]
           second_started_reachable (lookup_insert_eq _ _ _)).
Defined.

Lemma hooks_do_not_throw_witness :
  (exists this', factor_update second_started tt 1%nat (Fin 3) (Fin (1 / 2))
                 = inr this') /\
  (exists this', exit_update second_started tt tt = inr this').
Proof.
  exact (hooks_do_not_throw second_started tt 1%nat (Fin 3) (Fin (1 / 2)) tt
           second_started_reachable).
Defined.

Lemma exited_particles_completed_witness :
  exists q : particle nat unit unit,
    completed q = true /\ weight q = finalWeight q /\ is_Some (value q).
Proof.
  destruct first_exit_runs as (this & q & Hrun & Hex).
  exists q. apply (exited_particles_completed this q).
  - apply (reachable_call started_1 first_exit);
      [apply started_1_reachable|now rewrite Hrun].
  - rewrite Hex. apply list_elem_of_here.
Defined.

Lemma aSMC_seeding_ends_witness :
  aSMC (Value:=unit) tt 0%nat (Fin 10) PInf (Fin 0) = Hang /\
  exists n,
    aSMC (Value:=unit) tt 0%nat (Fin 10) (Fin 5) (Fin (3 / 4)) =
      control
        (Coroutine (replicate n (initParticle tt 0%nat)) (Fin 5) zero ∅ []
           0%nat tt (clone tt) None)
        (Some (Fin 10)) (Fin (3 / 4)) /\
    aSMC (Value:=unit) tt 0%nat (Fin 10) (Fin 5) (Fin (3 / 4)) <> Hang.
Proof.
  split.
  - exact (proj1 (aSMC_seeding_ends (Value:=unit) tt 0%nat (Fin 10) PInf
                    (Fin 0)) eq_refl).
  - apply (proj2 (aSMC_seeding_ends (Value:=unit) tt 0%nat (Fin 10) (Fin 5)
                    (Fin (3 / 4)))).
    right. apply leb_Fin. lra.
Defined.

Lemma aSMC_seeding_witness :
  (3 * 5 / 5 <= 5)%nat /\
  aSMC (Value:=unit) tt 0%nat (Fin 10) (of_nat 5) (Fin (3 / 4)) =
    control
      (Coroutine (replicate (3 * 5 / 5) (initParticle tt 0%nat)) (of_nat 5)
         zero ∅ [] 0%nat tt (clone tt) None)
      (Some (Fin 10)) (Fin (3 / 4)).
Proof.
  apply (aSMC_seeding (Value:=unit) tt 0%nat (Fin 10) (Fin (3 / 4)) 5). lia.
Defined.

Lemma all_dead_never_finishes_witness :
  match
    run (aSMC (Value:=unit) tt 0%nat (Fin 10) (Fin 5) (Fin (3 / 4)))
      [CallFactor tt 1%nat NInf (Fin 0) (Fin (3 / 4));
       CallFactor tt 1%nat NInf (Fin 0) (Fin (3 / 4))]
  with
  | Finish _ _ _ => False
  | Resume this _ _ => obsWeights this = ∅ /\ exitedParticles this = []
  | Throw _ | Hang => True
  end.
Proof.
  apply (all_dead_never_finishes (Value:=unit) tt 0%nat (Fin 10) (Fin 5)
           (Fin (3 / 4))).
  repeat constructor.
Defined.

Lemma exit_without_target_witness :
  start_0 = Resume started_0 0%nat tt /\
  exists this' d,
    exit started_0 tt tt (Fin 0) = Finish this' (oldStore started_0) d /\
    returned d = [Some tt] /\
    normalizationConstant d = PInf.
Proof.
  split; [exact start_0_runs|].
  destruct (exit_without_target started_0 (initParticle tt 0%nat) tt tt (Fin 0)
              0 (0 + 0) eq_refl eq_refl eq_refl eq_refl ltac:(lra))
    as (this' & d & He & Hr & H0 & _).
  exists this', d. split; [exact He|]. split; [exact Hr|].
  apply H0. lra.
Defined.

End Instances.
